(** * The quiz widget of [src/QuizPlatform.jsx]

    A shallow embedding of the React component [QuizPlatform]: its nine
    [useState] cells become one record, its event handlers become functions on
    that record, its two [useEffect] bodies become a timer transition and a
    persistence transition on an explicit browser state (IndexedDB object
    store, console, alerts).

    Modelling conventions.
    - A string that the code receives, compares or trims (an answer, an
      option, the text input) is a [jsString]: the list of its UTF-16 code
      units.  [trim] strips the ECMAScript white space and line terminators
      (TAB, LF, VT, FF, CR, SP, U+00A0, U+1680, U+2000 to U+200A, U+2028,
      U+2029, U+202F, U+205F, U+3000, U+FEFF), all of which are single code
      units.  [js] gives the code units of an ASCII literal of the source.
    - [String.prototype.toLowerCase] follows the Unicode tables of the
      engine, which are not part of the repository: it is the parameter
      [toLowerCase] of the class [CaseFolding].  Where a property evaluates it
      on a concrete string, the property assumes [FoldsAscii]: on a string of
      ASCII characters it maps A-Z to a-z and nothing else, as the real
      function does.
    - The strings the code only stores and displays (question texts,
      feedback, console and alert messages, the ISO timestamp) are
      [string] literals.
    - Counters that only grow ([score], [currentAttempt], [currentQuestion])
      are [nat]; [timer] is decremented and compared with [0], so it is a [Z].
    - [quizData[i]] with [i] out of range is [undefined] and reading a property
      of it raises a TypeError: the handlers return [option], [None] being the
      raised error.
    - React commits the state updates of one handler together and runs one
      handler at a time, so each handler is one atomic transition. *)

From Stdlib Require Import String Ascii List ZArith NArith Bool Arith Lia Sorted Permutation.
Import ListNotations.

#[local] Open Scope string_scope.
#[local] Open Scope nat_scope.
#[local] Open Scope list_scope.

(** ** JavaScript strings and the string primitives used by the component *)

(** A JavaScript string: its UTF-16 code units. *)
Definition jsString : Type := list N.

(** The code units of an ASCII literal of the source. *)
Definition js (literal : string) : jsString :=
  map N_of_ascii (list_ascii_of_string literal).

Module JsString.

(** WhiteSpace and LineTerminator of ECMAScript, by code unit. *)
Definition isWhiteSpace (c : N) : bool :=
  ((c =? 9) || (c =? 10) || (c =? 11) || (c =? 12) || (c =? 13) || (c =? 32)
   || (c =? 160) || (c =? 5760) || ((8192 <=? c) && (c <=? 8202))
   || (c =? 8232) || (c =? 8233) || (c =? 8239) || (c =? 8287)
   || (c =? 12288) || (c =? 65279))%N.

Fixpoint trimStart (s : jsString) : jsString :=
  match s with
  | [] => []
  | c :: r => if isWhiteSpace c then trimStart r else s
  end.

Fixpoint trimEnd (s : jsString) : jsString :=
  match s with
  | [] => []
  | c :: r =>
      match trimEnd r with
      | [] => if isWhiteSpace c then [] else [c]
      | r' => c :: r'
      end
  end.

(** [String.prototype.trim]. *)
Definition trim (s : jsString) : jsString := trimEnd (trimStart s).

(** [a === b] on strings. *)
Fixpoint strictEquals (a b : jsString) : bool :=
  match a, b with
  | [], [] => true
  | c :: a', d :: b' => (c =? d)%N && strictEquals a' b'
  | _, _ => false
  end.

(** Lower-casing of the ASCII range: A-Z to a-z, nothing else. *)
Definition asciiLowerUnit (c : N) : N :=
  if ((65 <=? c) && (c <=? 90))%N then (c + 32)%N else c.

Definition asciiLower (s : jsString) : jsString := map asciiLowerUnit s.

Fixpoint isAscii (s : jsString) : bool :=
  match s with
  | [] => true
  | c :: r => (c <? 128)%N && isAscii r
  end.

(** [allWhite s]: every code unit of [s] is white space. *)
Fixpoint allWhite (s : jsString) : bool :=
  match s with
  | [] => true
  | c :: r => isWhiteSpace c && allWhite r
  end.

Definition startsWhite (s : jsString) : bool :=
  match s with
  | [] => false
  | c :: _ => isWhiteSpace c
  end.

Fixpoint endsWhite (s : jsString) : bool :=
  match s with
  | [] => false
  | [c] => isWhiteSpace c
  | _ :: r => endsWhite r
  end.

End JsString.

Import JsString.

(** [String.prototype.toLowerCase], as the engine provides it. *)
Class CaseFolding := {
  toLowerCase : jsString -> jsString
}.

(** What is used of [toLowerCase] where it is evaluated: its effect on a
    string of ASCII characters. *)
Definition FoldsAscii (CF : CaseFolding) : Prop :=
  forall s, isAscii s = true -> toLowerCase s = asciiLower s.

(** The case folding that only folds the ASCII letters; it agrees with every
    [toLowerCase] that [FoldsAscii] on the ASCII strings, on which the
    scenarios below are run. *)
Definition asciiFolding : CaseFolding := {| toLowerCase := asciiLower |}.

(** ** Quiz data *)

Record Question := {
  question : string;
  options : option (list jsString);
  correctAnswer : jsString
}.

Definition quizData : list Question := [
  {| question := "Which planet is closest to the Sun?";
     options := Some [js "Venus"; js "Mercury"; js "Earth"; js "Mars"];
     correctAnswer := js "Mercury" |};
  {| question :=
       "Which data structure organizes items in a First-In, First-Out (FIFO) manner?";
     options := Some [js "Stack"; js "Queue"; js "Tree"; js "Graph"];
     correctAnswer := js "Queue" |};
  {| question := "Which of the following is primarily used for structuring web pages?";
     options := Some [js "Python"; js "Java"; js "HTML"; js "C++"];
     correctAnswer := js "HTML" |};
  {| question := "Which chemical symbol stands for Gold?";
     options := Some [js "Au"; js "Gd"; js "Ag"; js "Pt"];
     correctAnswer := js "Au" |};
  {| question :=
       "Which of these processes is not typically involved in refining petroleum?";
     options := Some [js "Fractional distillation"; js "Cracking"; js "Polymerization"; js "Filtration"];
     correctAnswer := js "Filtration" |};
  {| question := "What is the value of 12 + 28?";
     options := None; correctAnswer := js "40" |};
  {| question := "How many states are there in the United States?";
     options := None; correctAnswer := js "50" |};
  {| question := "In which year was the Declaration of Independence signed?";
     options := None; correctAnswer := js "1776" |};
  {| question := "What is the value of pi rounded to the nearest integer?";
     options := None; correctAnswer := js "3" |};
  {| question := "If a car travels at 60 mph for 2 hours, how many miles does it travel?";
     options := None; correctAnswer := js "120" |}
].

Definition questionCount : nat := length quizData.

(** ** Component state *)

(** One entry of the attempt log; [attemptQuestion] is the [question] key of
    the JavaScript object. *)
Record AttemptRecord := {
  attemptQuestion : string;
  selectedAnswer : jsString;
  isCorrect : bool;
  attemptNumber : nat;
  questionIndex : nat
}.

(** The nine [useState] cells of [QuizPlatform]. *)
Record State := {
  currentQuestion : nat;
  feedback : string;
  answeredCorrectly : bool;
  score : nat;
  attempts : list AttemptRecord;
  currentAttempt : nat;
  timer : Z;
  quizFinished : bool;
  textAnswer : jsString
}.

Definition initialState : State := {|
  currentQuestion := 0;
  feedback := "";
  answeredCorrectly := false;
  score := 0;
  attempts := [];
  currentAttempt := 0;
  timer := 30;
  quizFinished := false;
  textAnswer := []
|}.

(** The state setters returned by [useState]. *)
Definition setCurrentQuestion (v : nat) (s : State) : State :=
  {| currentQuestion := v; feedback := feedback s;
     answeredCorrectly := answeredCorrectly s; score := score s;
     attempts := attempts s; currentAttempt := currentAttempt s;
     timer := timer s; quizFinished := quizFinished s;
     textAnswer := textAnswer s |}.

Definition setFeedback (v : string) (s : State) : State :=
  {| currentQuestion := currentQuestion s; feedback := v;
     answeredCorrectly := answeredCorrectly s; score := score s;
     attempts := attempts s; currentAttempt := currentAttempt s;
     timer := timer s; quizFinished := quizFinished s;
     textAnswer := textAnswer s |}.

Definition setAnsweredCorrectly (v : bool) (s : State) : State :=
  {| currentQuestion := currentQuestion s; feedback := feedback s;
     answeredCorrectly := v; score := score s;
     attempts := attempts s; currentAttempt := currentAttempt s;
     timer := timer s; quizFinished := quizFinished s;
     textAnswer := textAnswer s |}.

Definition setScore (v : nat) (s : State) : State :=
  {| currentQuestion := currentQuestion s; feedback := feedback s;
     answeredCorrectly := answeredCorrectly s; score := v;
     attempts := attempts s; currentAttempt := currentAttempt s;
     timer := timer s; quizFinished := quizFinished s;
     textAnswer := textAnswer s |}.

Definition setAttempts (v : list AttemptRecord) (s : State) : State :=
  {| currentQuestion := currentQuestion s; feedback := feedback s;
     answeredCorrectly := answeredCorrectly s; score := score s;
     attempts := v; currentAttempt := currentAttempt s;
     timer := timer s; quizFinished := quizFinished s;
     textAnswer := textAnswer s |}.

Definition setCurrentAttempt (v : nat) (s : State) : State :=
  {| currentQuestion := currentQuestion s; feedback := feedback s;
     answeredCorrectly := answeredCorrectly s; score := score s;
     attempts := attempts s; currentAttempt := v;
     timer := timer s; quizFinished := quizFinished s;
     textAnswer := textAnswer s |}.

Definition setTimer (v : Z) (s : State) : State :=
  {| currentQuestion := currentQuestion s; feedback := feedback s;
     answeredCorrectly := answeredCorrectly s; score := score s;
     attempts := attempts s; currentAttempt := currentAttempt s;
     timer := v; quizFinished := quizFinished s;
     textAnswer := textAnswer s |}.

Definition setQuizFinished (v : bool) (s : State) : State :=
  {| currentQuestion := currentQuestion s; feedback := feedback s;
     answeredCorrectly := answeredCorrectly s; score := score s;
     attempts := attempts s; currentAttempt := currentAttempt s;
     timer := timer s; quizFinished := v;
     textAnswer := textAnswer s |}.

Definition setTextAnswer (v : jsString) (s : State) : State :=
  {| currentQuestion := currentQuestion s; feedback := feedback s;
     answeredCorrectly := answeredCorrectly s; score := score s;
     attempts := attempts s; currentAttempt := currentAttempt s;
     timer := timer s; quizFinished := quizFinished s;
     textAnswer := v |}.

(** ** Event handlers *)

Section Component.

Context {CF : CaseFolding}.

(** The comparison of [handleAnswerSelection]:
    [answer.toString().trim().toLowerCase() ===
     correctAnswer.toString().trim().toLowerCase()]. *)
Definition judge (answer correct : jsString) : bool :=
  strictEquals (toLowerCase (trim answer)) (toLowerCase (trim correct)).

(** Following the spec's words for the judgement: the submitted answer and
    the correct answer are equal once the white space around each is trimmed
    and case is ignored.  [answer] is a core padded with white space on both
    sides, [correct] likewise, and the two cores have the same lower-case
    form. *)
Definition equalAfterNormalization (answer correct : jsString) : Prop :=
  exists l core r l' core' r',
    answer = l ++ core ++ r /\
    correct = l' ++ core' ++ r' /\
    allWhite l = true /\ allWhite r = true /\
    allWhite l' = true /\ allWhite r' = true /\
    startsWhite core = false /\ endsWhite core = false /\
    startsWhite core' = false /\ endsWhite core' = false /\
    toLowerCase core = toLowerCase core'.

(** [handleAnswerSelection(answer)], run in the state [s] its closure
    captured. *)
Definition handleAnswerSelection (answer : jsString) (s : State) : option State :=
  if answeredCorrectly s then Some s
  else
    match nth_error quizData (currentQuestion s) with
    | None => None
    | Some q =>
        let isCorrect' := judge answer (correctAnswer q) in
        let attemptRecord :=
          {| attemptQuestion := question q;
             selectedAnswer := answer;
             isCorrect := isCorrect';
             attemptNumber := currentAttempt s + 1;
             questionIndex := currentQuestion s |} in
        let s1 := setCurrentAttempt (currentAttempt s + 1) s in
        let s2 := setAttempts (attempts s1 ++ [attemptRecord]) s1 in
        if isCorrect' then
          Some (setScore (score s2 + 1)
                  (setAnsweredCorrectly true (setFeedback "Correct!" s2)))
        else
          Some (setFeedback "Incorrect, try again!" s2)
    end.

(** [handleNextQuestion()]. *)
Definition handleNextQuestion (s : State) : State :=
  let s' :=
    setTextAnswer []
      (setTimer 30
         (setAnsweredCorrectly false
            (setFeedback "" (setCurrentAttempt 0 s)))) in
  if currentQuestion s + 1 <? length quizData
  then setCurrentQuestion (currentQuestion s' + 1) s'
  else setQuizFinished true s'.

(** [restartQuiz()]. *)
Definition restartQuiz (s : State) : State :=
  setTextAnswer []
    (setCurrentAttempt 0
       (setAnsweredCorrectly false
          (setFeedback ""
             (setQuizFinished false
                (setTimer 30
                   (setAttempts []
                      (setScore 0 (setCurrentQuestion 0 s)))))))).

(** The record the timer effect logs when time runs out with no attempt. *)
Definition noAnswerRecord (q : Question) (i : nat) : AttemptRecord :=
  {| attemptQuestion := question q;
     selectedAnswer := js "No Answer";
     isCorrect := false;
     attemptNumber := 1;
     questionIndex := i |}.

(** The timer effect: one firing of the effect in state [s], including the
    firing of the one-second timeout it schedules while [timer > 0]. *)
Definition timerEffect (s : State) : option State :=
  if negb (quizFinished s) && negb (answeredCorrectly s) then
    if (0 <? timer s)%Z then Some (setTimer (timer s - 1)%Z s)
    else if currentAttempt s =? 0 then
      match nth_error quizData (currentQuestion s) with
      | None => None
      | Some q =>
          Some (handleNextQuestion
                  (setAttempts
                     (attempts s ++ [noAnswerRecord q (currentQuestion s)]) s))
      end
    else Some (handleNextQuestion s)
  else Some s.

(** ** Operations of a session *)

(** The operations the rendered component offers.  The question view (options,
    text input, Next/Skip button) is rendered only while [!quizFinished], the
    summary view with the Retry button only once [quizFinished]; the timer
    effect guards itself. *)
Inductive Op :=
| submitAnswer (answer : jsString)
| tick
| advance
| restart.

(** [perform o s] is the state after [o], or [None] when the component offers
    no such operation in [s] (or the handler raises). *)
Definition perform (o : Op) (s : State) : option State :=
  match o with
  | submitAnswer answer =>
      if quizFinished s then None else handleAnswerSelection answer s
  | tick => timerEffect s
  | advance => if quizFinished s then None else Some (handleNextQuestion s)
  | restart => if quizFinished s then Some (restartQuiz s) else None
  end.

Definition withinSession (o : Op) : bool :=
  match o with
  | restart => false
  | _ => true
  end.

Fixpoint run (ops : list Op) (s : State) : option State :=
  match ops with
  | [] => Some s
  | o :: rest =>
      match perform o s with
      | None => None
      | Some s' => run rest s'
      end
  end.

(** States of a single session: reached from the initial state by
    [submitAnswer], [tick] and [advance]. *)
Inductive Reachable : State -> Prop :=
| Reachable_initial : Reachable initialState
| Reachable_step s o s' :
    Reachable s -> withinSession o = true -> perform o s = Some s' ->
    Reachable s'.

(** [Evolves s s']: [s'] is reached from [s] within the same session. *)
Inductive Evolves : State -> State -> Prop :=
| Evolves_refl s : Evolves s s
| Evolves_step s o s' s'' :
    Evolves s s' -> withinSession o = true -> perform o s' = Some s'' ->
    Evolves s s''.

(** ** Reading the attempt log *)

Definition correctAttempts (log : list AttemptRecord) : list AttemptRecord :=
  filter isCorrect log.

Definition correctAt (q : nat) (log : list AttemptRecord) : list AttemptRecord :=
  filter (fun a => isCorrect a && (questionIndex a =? q)) log.

Definition attemptsAt (q : nat) (log : list AttemptRecord) : list AttemptRecord :=
  filter (fun a => questionIndex a =? q) log.

(** The questions of [quizData] with at least one correct attempt in [log]. *)
Definition answeredQuestions (log : list AttemptRecord) : list nat :=
  filter (fun q => existsb (fun a => isCorrect a && (questionIndex a =? q)) log)
         (seq 0 questionCount).

(** The distinct question indices carried by the correct attempts of [log]. *)
Definition correctIndices (log : list AttemptRecord) : list nat :=
  nodup Nat.eq_dec (map questionIndex (correctAttempts log)).

Definition isPrefix {A} (l l' : list A) : Prop := exists k, l' = l ++ k.

Definition indexSorted (log : list AttemptRecord) : Prop :=
  StronglySorted le (map questionIndex log).

(** The invariant of a session. *)
Record Invariant (s : State) : Prop := {
  inv_index : currentQuestion s < questionCount;
  inv_bound : Forall (fun a => questionIndex a <= currentQuestion s) (attempts s);
  inv_sorted : indexSorted (attempts s);
  inv_score : score s = length (correctAttempts (attempts s));
  inv_once : NoDup (map questionIndex (correctAttempts (attempts s)));
  inv_open :
    quizFinished s = false -> answeredCorrectly s = false ->
    correctAt (currentQuestion s) (attempts s) = [];
  inv_count :
    quizFinished s = false ->
    currentAttempt s = length (attemptsAt (currentQuestion s) (attempts s));
  inv_timer : (0 <= timer s <= 30)%Z;
  inv_finished : quizFinished s = true -> currentQuestion s + 1 = questionCount
}.

(** ** Persistence *)

Record QuizHistoryEntry := {
  timestamp : string;
  historyScore : nat;
  totalQuestions : nat;
  historyAttempts : list AttemptRecord
}.

(** What IndexedDB does with one [saveQuizHistory] call: the open request
    fails, [db.transaction] or [store.add] throws, the transaction fires an
    error event, the transaction aborts without an error event (a commit that
    fails, say on quota or on input/output), or the transaction completes. *)
Inductive DbOutcome :=
| openError
| requestThrows
| transactionError
| transactionAbort
| transactionComplete.


(** The part of the browser the component writes to: the [quizHistory] object
    store (in key order), the lines of [console.error], the alerts fired, and
    the number of [indexedDB.open] requests made. *)
Record Browser := {
  quizHistory : list QuizHistoryEntry;
  consoleErrors : list string;
  alerts : list string;
  openRequests : nat
}.

Definition emptyBrowser : Browser :=
  {| quizHistory := []; consoleErrors := []; alerts := []; openRequests := 0 |}.

(** [saveQuizHistory(history)] under the outcome [o]. *)
Definition saveQuizHistory (o : DbOutcome) (history : QuizHistoryEntry)
    (b : Browser) : Browser :=
  match o with
  | openError | requestThrows =>
      {| quizHistory := quizHistory b;
         consoleErrors := consoleErrors b ++ ["Error in saveQuizHistory:"];
         alerts := alerts b;
         openRequests := openRequests b + 1 |}
  | transactionError =>
      {| quizHistory := quizHistory b;
         consoleErrors := consoleErrors b ++ ["Error saving quiz history: "];
         alerts := alerts b;
         openRequests := openRequests b + 1 |}
  | transactionAbort =>
      {| quizHistory := quizHistory b;
         consoleErrors := consoleErrors b;
         alerts := alerts b;
         openRequests := openRequests b + 1 |}
  | transactionComplete =>
      {| quizHistory := quizHistory b ++ [history];
         consoleErrors := consoleErrors b;
         alerts := alerts b ++ ["Quiz history saved successfully in IndexDB!"];
         openRequests := openRequests b + 1 |}
  end.

(** What the environment supplies to one commit: the clock reading of
    [new Date().toISOString()] and the fate of the database request. *)
Record Env := {
  now : string;
  db : DbOutcome
}.

Definition attemptRecord_eqb (a b : AttemptRecord) : bool :=
  String.eqb (attemptQuestion a) (attemptQuestion b)
  && strictEquals (selectedAnswer a) (selectedAnswer b)
  && Bool.eqb (isCorrect a) (isCorrect b)
  && (attemptNumber a =? attemptNumber b)
  && (questionIndex a =? questionIndex b).

Fixpoint log_eqb (l l' : list AttemptRecord) : bool :=
  match l, l' with
  | [], [] => true
  | a :: r, b :: r' => attemptRecord_eqb a b && log_eqb r r'
  | _, _ => false
  end.

(** The dependency test of the history effect, [[quizFinished, score,
    attempts]].  React compares [attempts] by reference; every [setAttempts]
    of the component installs a fresh array, which differs in contents from
    the previous one except for [setAttempts([])] on an empty log in
    [restartQuiz], where [quizFinished] is false and the effect body does
    nothing. *)
Definition historyDepsChanged (prev next : State) : bool :=
  negb (Bool.eqb (quizFinished prev) (quizFinished next))
  || negb (score prev =? score next)
  || negb (log_eqb (attempts prev) (attempts next)).

Definition historyOf (e : Env) (s : State) : QuizHistoryEntry :=
  {| timestamp := now e;
     historyScore := score s;
     totalQuestions := length quizData;
     historyAttempts := attempts s |}.

(** The history effect after a commit that took the state from [prev] to
    [next]. *)
Definition historyEffect (e : Env) (prev next : State) (b : Browser) : Browser :=
  if historyDepsChanged prev next && quizFinished next
  then saveQuizHistory (db e) (historyOf e next) b
  else b.

Record World := {
  session : State;
  browser : Browser
}.

Definition initialWorld : World :=
  {| session := initialState; browser := emptyBrowser |}.

(** One operation followed by the effects of its commit. *)
Definition dispatch (o : Op) (e : Env) (w : World) : option World :=
  match perform o (session w) with
  | None => None
  | Some s' =>
      Some {| session := s';
              browser := historyEffect e (session w) s' (browser w) |}
  end.

Fixpoint dispatchAll (steps : list (Op * Env)) (w : World) : option World :=
  match steps with
  | [] => Some w
  | (o, e) :: rest =>
      match dispatch o e w with
      | None => None
      | Some w' => dispatchAll rest w'
      end
  end.

Inductive WorldReachable : World -> Prop :=
| WorldReachable_initial : WorldReachable initialWorld
| WorldReachable_step w o e w' :
    WorldReachable w -> dispatch o e w = Some w' -> WorldReachable w'.

(** The worlds reached when the page is mounted in a browser [b0] that
    already holds entries, console lines and alerts of earlier visits. *)
Inductive WorldReachableFrom (b0 : Browser) : World -> Prop :=
| WorldReachableFrom_mount :
    WorldReachableFrom b0 {| session := initialState; browser := b0 |}
| WorldReachableFrom_step w o e w' :
    WorldReachableFrom b0 w -> dispatch o e w = Some w' ->
    WorldReachableFrom b0 w'.

(** ** Events of the rendered page *)

(** The events the JSX wires to the handlers.  A control that is not rendered
    or is disabled in [s] fires nothing ([None]). *)
Inductive UiEvent :=
| clickOption (i : nat)
| changeText (value : jsString)
| clickSubmit
| clickNextOrSkip
| clickRetry
| timerFires.

Definition uiFire (e : UiEvent) (s : State) : option State :=
  if quizFinished s then
    match e with
    | clickRetry => Some (restartQuiz s)
    | _ => None
    end
  else
    match nth_error quizData (currentQuestion s) with
    | None => None
    | Some q =>
        match e, options q with
        | clickOption i, Some opts =>
            match nth_error opts i with
            | Some option => handleAnswerSelection option s
            | None => None
            end
        | changeText value, None =>
            if answeredCorrectly s then None else Some (setTextAnswer value s)
        | clickSubmit, None =>
            if answeredCorrectly s || strictEquals (trim (textAnswer s)) []
            then None
            else if negb (strictEquals (trim (textAnswer s)) [])
            then option_map (setTextAnswer [])
                            (handleAnswerSelection (textAnswer s) s)
            else Some s
        | clickNextOrSkip, _ => Some (handleNextQuestion s)
        | timerFires, _ => timerEffect s
        | _, _ => None
        end
    end.

Definition withinSessionUi (e : UiEvent) : bool :=
  match e with
  | clickRetry => false
  | _ => true
  end.

Inductive UiReachable : State -> Prop :=
| UiReachable_initial : UiReachable initialState
| UiReachable_step s e s' :
    UiReachable s -> withinSessionUi e = true -> uiFire e s = Some s' ->
    UiReachable s'.

(** The state with the free-text input buffer cleared: the handlers never
    read [textAnswer]. *)
Definition forgetText (s : State) : State := setTextAnswer [] s.

(** ** Scenarios *)

(** Pressing Skip on every question. *)
Definition skipAll : list Op := repeat advance 10.

(** The state on the last question after nine skips. *)
Definition lastQuestionState : State :=
  {| currentQuestion := 9; feedback := ""; answeredCorrectly := false;
     score := 0; attempts := []; currentAttempt := 0; timer := 30;
     quizFinished := false; textAnswer := [] |}.

(** Time running out on the first question: thirty decrements, then expiry. *)
Definition expireFirst : list Op := repeat tick 31.

(** The first question with its thirty seconds used up and no attempt made. *)
Definition idleExpiredState : State :=
  {| currentQuestion := 0; feedback := ""; answeredCorrectly := false;
     score := 0; attempts := []; currentAttempt := 0; timer := 0;
     quizFinished := false; textAnswer := [] |}.

(** The first question just answered correctly at the first attempt. *)
Definition answeredFirstState : State :=
  {| currentQuestion := 0; feedback := "Correct!"; answeredCorrectly := true;
     score := 1;
     attempts :=
       [{| attemptQuestion := "Which planet is closest to the Sun?";
           selectedAnswer := js "Mercury"; isCorrect := true;
           attemptNumber := 1; questionIndex := 0 |}];
     currentAttempt := 1; timer := 30; quizFinished := false;
     textAnswer := [] |}.

(** The summary reached from [lastQuestionState] by one more skip. *)
Definition skippedAllState : State :=
  {| currentQuestion := 9; feedback := ""; answeredCorrectly := false;
     score := 0; attempts := []; currentAttempt := 0; timer := 30;
     quizFinished := true; textAnswer := [] |}.

Definition lastQuestionWorld : World :=
  {| session := lastQuestionState; browser := emptyBrowser |}.

(** The world after that last skip with a working database. *)
Definition savedWorld : World :=
  {| session := skippedAllState;
     browser :=
       {| quizHistory :=
            [{| timestamp := "2025-01-01T00:00:00.000Z"; historyScore := 0;
                totalQuestions := 10; historyAttempts := [] |}];
          consoleErrors := [];
          alerts := ["Quiz history saved successfully in IndexDB!"];
          openRequests := 1 |} |}.

(** First answering with Venus, then with Mercury, then pressing Next. *)
Definition venusThenMercury : list Op :=
  [submitAnswer (js "Venus"); submitAnswer (js "Mercury"); advance].

(** The state a run of operations leaves the initial state in (the initial
    state itself if the run is not possible). *)
Definition stateAfter (ops : list Op) : State :=
  match run ops initialState with
  | Some s => s
  | None => initialState
  end.

(** A database that cannot be opened, and one that works. *)
Definition failingEnv : Env :=
  {| now := "2025-01-01T00:00:00.000Z"; db := openError |}.

Definition workingEnv : Env :=
  {| now := "2025-01-01T00:00:00.000Z"; db := transactionComplete |}.

Definition worldAfter (e : Env) (ops : list Op) : World :=
  match dispatchAll (map (fun o => (o, e)) ops) initialWorld with
  | Some w => w
  | None => initialWorld
  end.

(** The browser of a returning visitor: one entry of an earlier visit. *)
Definition returningBrowser : Browser :=
  {| quizHistory :=
       [{| timestamp := "2024-12-31T00:00:00.000Z"; historyScore := 0;
           totalQuestions := 10; historyAttempts := [] |}];
     consoleErrors := [];
     alerts := ["Quiz history saved successfully in IndexDB!"];
     openRequests := 1 |}.

(** A database whose transaction aborts without an error event. *)
Definition abortingEnv : Env :=
  {| now := "2025-01-01T00:00:00.000Z"; db := transactionAbort |}.

(** The world of that visitor after skipping through the quiz with such a
    database. *)
Definition abortedWorld : World :=
  {| session := skippedAllState;
     browser :=
       {| quizHistory := quizHistory returningBrowser;
          consoleErrors := [];
          alerts := alerts returningBrowser;
          openRequests := 2 |} |}.

(** The text "40" followed by a no-break space (U+00A0). *)
Definition fortyNbsp : jsString := js "40" ++ [160%N].

(** ** Vocabulary of the claims *)

(** The timer effect finds the time of an unanswered question used up. *)
Definition expired (s : State) : bool :=
  negb (quizFinished s) && negb (answeredCorrectly s) && negb (0 <? timer s)%Z.

(** [s'] is one question transition after [s]: the next question, or the
    summary when [s] was on the last question. *)
Definition advanced (s s' : State) : Prop :=
  (currentQuestion s + 1 < questionCount /\
   currentQuestion s' = currentQuestion s + 1 /\
   quizFinished s' = quizFinished s)
  \/
  (currentQuestion s + 1 = questionCount /\
   currentQuestion s' = currentQuestion s /\
   quizFinished s' = true).

(** The transient per-question cells after a question transition. *)
Definition freshQuestion (s' : State) : Prop :=
  currentAttempt s' = 0 /\ timer s' = 30%Z /\ answeredCorrectly s' = false /\
  feedback s' = "" /\ textAnswer s' = [].

(** [r] is the record synthesized for question [i] when time runs out. *)
Definition synthetic (i : nat) (r : AttemptRecord) : Prop :=
  selectedAnswer r = js "No Answer" /\ isCorrect r = false /\
  attemptNumber r = 1 /\ questionIndex r = i.

(** The first question answered with Venus and then with Mercury. *)
Definition venusRecord : AttemptRecord :=
  {| attemptQuestion := "Which planet is closest to the Sun?";
     selectedAnswer := js "Venus"; isCorrect := false;
     attemptNumber := 1; questionIndex := 0 |}.

Definition mercuryRecord : AttemptRecord :=
  {| attemptQuestion := "Which planet is closest to the Sun?";
     selectedAnswer := js "Mercury"; isCorrect := true;
     attemptNumber := 2; questionIndex := 0 |}.

Definition venusMercuryState : State :=
  {| currentQuestion := 0; feedback := "Correct!"; answeredCorrectly := true;
     score := 1; attempts := [venusRecord; mercuryRecord];
     currentAttempt := 2; timer := 30; quizFinished := false;
     textAnswer := [] |}.

(** The first question after a click on its first option, Venus. *)
Definition venusState : State :=
  {| currentQuestion := 0; feedback := "Incorrect, try again!";
     answeredCorrectly := false; score := 0; attempts := [venusRecord];
     currentAttempt := 1; timer := 30; quizFinished := false;
     textAnswer := [] |}.

(** ** Vocabulary of the further properties *)

(** The records that submitting [answers] one after the other logs on
    question [q] at index [i], when [made] attempts were made before. *)
Fixpoint submissionRecords (q : Question) (i made : nat) (answers : list jsString)
  : list AttemptRecord :=
  match answers with
  | [] => []
  | answer :: rest =>
      {| attemptQuestion := question q;
         selectedAnswer := answer;
         isCorrect := judge answer (correctAnswer q);
         attemptNumber := made + 1;
         questionIndex := i |}
      :: submissionRecords q i (made + 1) rest
  end.

(** [r] agrees with the quiz data: it carries the text of the question at
    its index, and its verdict is the judgement of its answer against that
    question's correct answer. *)
Definition consistentRecord (r : AttemptRecord) : Prop :=
  exists q,
    nth_error quizData (questionIndex r) = Some q /\
    attemptQuestion r = question q /\
    isCorrect r = judge (selectedAnswer r) (correctAnswer q).

(** [r] holds an answer the page can produce: the timer's ["No Answer"], one
    of the listed options of a multiple-choice question, or a text that is
    not blank for a free-text question. *)
Definition submittable (r : AttemptRecord) : Prop :=
  selectedAnswer r = js "No Answer" \/
  exists q,
    nth_error quizData (questionIndex r) = Some q /\
    match options q with
    | Some opts => In (selectedAnswer r) opts
    | None => trim (selectedAnswer r) <> []
    end.

(** *** The upgrade handler of [openDB] *)

(** The part of an IndexedDB database the handler looks at: the set of names
    of its object stores, given by its membership test (the handler only asks
    [contains]; the order in which the API lists the names is not modelled). *)
Record Database := {
  hasStore : jsString -> bool
}.

(** [db.objectStoreNames.contains(name)]. *)
Definition contains (name : jsString) (d : Database) : bool := hasStore d name.

(** [db.createObjectStore(name, ...)]: raises a ConstraintError ([None]) when
    a store of that name exists. *)
Definition createObjectStore (name : jsString) (d : Database) : option Database :=
  if contains name d then None
  else Some {| hasStore := fun n => strictEquals n name || hasStore d n |}.

(** [request.onupgradeneeded]. *)
Definition onupgradeneeded (d : Database) : option Database :=
  if negb (contains (js "quizHistory") d)
  then createObjectStore (js "quizHistory") d
  else Some d.

(** * Properties *)

(** ** Trimming and case folding *)

Section StringFacts.

Lemma trimStart_white l s :
  allWhite l = true -> trimStart (l ++ s) = trimStart s.
Proof.
  induction l as [|c l IH]; simpl; intros H.
  - reflexivity.
  - apply andb_true_iff in H as [Hc Hl]. rewrite Hc. now apply IH.
Qed.

Lemma trimStart_id s : startsWhite s = false -> trimStart s = s.
Proof.
  destruct s as [|c r]; simpl; intros H.
  - reflexivity.
  - now rewrite H.
Qed.

Lemma trimStart_starts s : startsWhite (trimStart s) = false.
Proof.
  induction s as [|c r IH]; simpl.
  - reflexivity.
  - destruct (isWhiteSpace c) eqn:E; simpl; [exact IH | exact E].
Qed.

Lemma trimStart_decompose s :
  exists l, s = l ++ trimStart s /\ allWhite l = true.
Proof.
  induction s as [|c r [l [E W]]]; simpl.
  - exists []; auto.
  - destruct (isWhiteSpace c) eqn:Hc.
    + exists (c :: l); simpl. rewrite Hc, W, <- E. auto.
    + exists []; auto.
Qed.

Lemma trimEnd_white r : allWhite r = true -> trimEnd r = [].
Proof.
  induction r as [|c r IH]; simpl; intros H.
  - reflexivity.
  - apply andb_true_iff in H as [Hc Hr]. rewrite (IH Hr), Hc. reflexivity.
Qed.

Lemma trimEnd_app s r : allWhite r = true -> trimEnd (s ++ r) = trimEnd s.
Proof.
  intros H. induction s as [|c s IH]; simpl.
  - now apply trimEnd_white.
  - now rewrite IH.
Qed.

Lemma trimEnd_id s : endsWhite s = false -> trimEnd s = s.
Proof.
  induction s as [|c r IH]; simpl; intros H.
  - reflexivity.
  - destruct r as [|d r'].
    + simpl. now rewrite H.
    + rewrite (IH H). reflexivity.
Qed.

Lemma trimEnd_ends s : endsWhite (trimEnd s) = false.
Proof.
  induction s as [|c r IH]; simpl.
  - reflexivity.
  - destruct (trimEnd r) as [|d r'] eqn:E.
    + destruct (isWhiteSpace c) eqn:Hc; simpl; auto.
    + exact IH.
Qed.

Lemma trimEnd_starts s : startsWhite s = false -> startsWhite (trimEnd s) = false.
Proof.
  destruct s as [|c r]; simpl; intros H.
  - reflexivity.
  - destruct (trimEnd r); [rewrite H|]; simpl; auto.
Qed.

Lemma trimEnd_decompose s :
  exists r, s = trimEnd s ++ r /\ allWhite r = true.
Proof.
  induction s as [|c s [r [E W]]]; simpl.
  - exists []; auto.
  - destruct (trimEnd s) as [|d t] eqn:Ht.
    + simpl in E. subst r.
      destruct (isWhiteSpace c) eqn:Hc.
      * exists (c :: s); simpl. rewrite Hc, W. auto.
      * exists s; simpl. auto.
    + exists r. simpl in *. rewrite <- E. auto.
Qed.

(** [trim s] is [s] without a white prefix and a white suffix... *)
Lemma trim_decompose s :
  exists l r, s = l ++ trim s ++ r /\ allWhite l = true /\ allWhite r = true.
Proof.
  destruct (trimStart_decompose s) as [l [El Wl]].
  destruct (trimEnd_decompose (trimStart s)) as [r [Er Wr]].
  exists l, r. unfold trim. rewrite <- Er. auto.
Qed.

(** ... and neither starts nor ends with white space. *)
Lemma trim_tight s : startsWhite (trim s) = false /\ endsWhite (trim s) = false.
Proof.
  unfold trim; split.
  - apply trimEnd_starts, trimStart_starts.
  - apply trimEnd_ends.
Qed.

Lemma trimStart_all_white r : allWhite r = true -> trimStart r = [].
Proof.
  induction r as [|c r IH]; simpl; intros H.
  - reflexivity.
  - apply andb_true_iff in H as [Hc Hr]. rewrite Hc. now apply IH.
Qed.

(** Any such decomposition of [s] has [trim s] in the middle. *)
Lemma trim_unique l core r :
  allWhite l = true -> allWhite r = true ->
  startsWhite core = false -> endsWhite core = false ->
  trim (l ++ core ++ r) = core.
Proof.
  intros Wl Wr Hs He. unfold trim.
  rewrite (trimStart_white _ _ Wl).
  destruct core as [|c core'].
  - simpl. now rewrite (trimStart_all_white _ Wr).
  - rewrite trimStart_id by exact Hs.
    rewrite (trimEnd_app _ _ Wr). now apply trimEnd_id.
Qed.

Lemma strictEquals_eq a b : strictEquals a b = true <-> a = b.
Proof.
  revert b. induction a as [|c a IH]; intros [|d b]; simpl;
    try (split; [discriminate | discriminate]); [tauto|].
  rewrite andb_true_iff, N.eqb_eq, IH. split.
  - intros [-> ->]. reflexivity.
  - intros E. injection E as -> ->. auto.
Qed.

Lemma strictEquals_refl a : strictEquals a a = true.
Proof. now apply strictEquals_eq. Qed.

Lemma strictEquals_neq a b : strictEquals a b = false <-> a <> b.
Proof.
  rewrite <- strictEquals_eq. destruct (strictEquals a b); split;
    congruence.
Qed.

Lemma strictEquals_sym a b : strictEquals a b = strictEquals b a.
Proof.
  destruct (strictEquals a b) eqn:E.
  - apply strictEquals_eq in E as ->. symmetry. apply strictEquals_refl.
  - symmetry. apply strictEquals_neq. apply strictEquals_neq in E. congruence.
Qed.

Lemma allWhite_app l r : allWhite (l ++ r) = allWhite l && allWhite r.
Proof.
  induction l as [|c l IH]; simpl; [reflexivity|].
  now rewrite IH, andb_assoc.
Qed.

(** White space put around a string is trimmed away with its own. *)
Lemma trim_padding l a r :
  allWhite l = true -> allWhite r = true -> trim (l ++ a ++ r) = trim a.
Proof.
  intros Wl Wr.
  destruct (trim_decompose a) as (l' & r' & E & Wl' & Wr').
  destruct (trim_tight a) as [S1 S2].
  rewrite E at 1.
  replace (l ++ (l' ++ trim a ++ r') ++ r)
    with ((l ++ l') ++ trim a ++ (r' ++ r))
    by (now rewrite <- !app_assoc).
  apply trim_unique; rewrite ?allWhite_app, ?Wl, ?Wl', ?Wr, ?Wr'; auto.
Qed.

(** The ASCII letters are not white space, before or after folding. *)
Lemma isWhiteSpace_asciiLowerUnit c :
  isWhiteSpace (asciiLowerUnit c) = isWhiteSpace c.
Proof.
  unfold asciiLowerUnit.
  destruct ((65 <=? c) && (c <=? 90))%N eqn:E; [|reflexivity].
  apply andb_true_iff in E as [E1 E2]. apply N.leb_le in E1, E2.
  assert (W : forall d, (65 <= d <= 122)%N -> isWhiteSpace d = false).
  { intros d Hd. unfold isWhiteSpace.
    repeat match goal with
           | |- context [(d =? ?k)%N] =>
               rewrite (proj2 (N.eqb_neq d k)) by lia
           end.
    rewrite (proj2 (N.leb_gt 8192 d)) by lia. reflexivity. }
  rewrite !W by lia. reflexivity.
Qed.

Lemma trimStart_asciiLower s :
  trimStart (asciiLower s) = asciiLower (trimStart s).
Proof.
  induction s as [|c s IH]; simpl; [reflexivity|].
  rewrite isWhiteSpace_asciiLowerUnit.
  destruct (isWhiteSpace c); [exact IH | reflexivity].
Qed.

Lemma trimEnd_asciiLower s :
  trimEnd (asciiLower s) = asciiLower (trimEnd s).
Proof.
  unfold asciiLower. induction s as [|c s IH]; simpl; [reflexivity|].
  rewrite IH, isWhiteSpace_asciiLowerUnit.
  destruct (trimEnd s); simpl; [destruct (isWhiteSpace c)|]; reflexivity.
Qed.

Lemma trim_asciiLower s : trim (asciiLower s) = asciiLower (trim s).
Proof.
  unfold trim. now rewrite trimStart_asciiLower, trimEnd_asciiLower.
Qed.

Lemma isAscii_trim s : isAscii s = true -> isAscii (trim s) = true.
Proof.
  intros H. unfold trim.
  assert (S : isAscii (trimStart s) = true).
  { induction s as [|c s IH]; simpl in *; [reflexivity|].
    apply andb_true_iff in H as [Hc Hs].
    destruct (isWhiteSpace c); [now apply IH|]. simpl. now rewrite Hc, Hs. }
  clear H. induction (trimStart s) as [|c t IH]; simpl in *; [reflexivity|].
  apply andb_true_iff in S as [Hc Ht]. specialize (IH Ht).
  destruct (trimEnd t); simpl in *.
  - destruct (isWhiteSpace c); simpl; [reflexivity | now rewrite Hc].
  - now rewrite Hc, IH.
Qed.

(** On ASCII strings the judgement is the comparison of the ASCII-folded
    trimmed strings. *)
Lemma judge_ascii a c :
  FoldsAscii CF -> isAscii a = true -> isAscii c = true ->
  judge a c = strictEquals (asciiLower (trim a)) (asciiLower (trim c)).
Proof.
  intros FA Ha Hc. unfold judge.
  now rewrite !FA by (now apply isAscii_trim).
Qed.

End StringFacts.

(** The comparison of the handler agrees with the spec's wording. *)
Lemma judge_spec answer correct :
  judge answer correct = true <-> equalAfterNormalization answer correct.
Proof.
  unfold judge. rewrite strictEquals_eq. split.
  - intros H.
    destruct (trim_decompose answer) as [l [r [E [Wl Wr]]]].
    destruct (trim_decompose correct) as [l' [r' [E' [Wl' Wr']]]].
    destruct (trim_tight answer) as [S1 S2].
    destruct (trim_tight correct) as [S1' S2'].
    exists l, (trim answer), r, l', (trim correct), r'.
    repeat split; assumption.
  - intros (l & core & r & l' & core' & r' & E & E' & Wl & Wr & Wl' & Wr'
            & S1 & S2 & S1' & S2' & H).
    subst answer correct.
    now rewrite !trim_unique.
Qed.

(** ** Lists of attempts *)

Section LogFacts.

Implicit Types (log : list AttemptRecord) (a : AttemptRecord) (q : nat).

Lemma correctAttempts_app log log' :
  correctAttempts (log ++ log') = correctAttempts log ++ correctAttempts log'.
Proof. apply filter_app. Qed.

Lemma correctAt_app q log log' :
  correctAt q (log ++ log') = correctAt q log ++ correctAt q log'.
Proof. apply filter_app. Qed.

Lemma attemptsAt_app q log log' :
  attemptsAt q (log ++ log') = attemptsAt q log ++ attemptsAt q log'.
Proof. apply filter_app. Qed.

Lemma correctAt_nil_iff q log :
  correctAt q log = [] <-> ~ In q (map questionIndex (correctAttempts log)).
Proof.
  induction log as [|a log IH]; simpl.
  - tauto.
  - destruct (isCorrect a); simpl.
    + destruct (questionIndex a =? q) eqn:E.
      * apply Nat.eqb_eq in E. split; [discriminate | tauto].
      * apply Nat.eqb_neq in E. tauto.
    + exact IH.
Qed.

Lemma attemptsAt_above q n log :
  Forall (fun a => questionIndex a <= n) log -> n < q -> attemptsAt q log = [].
Proof.
  intros H Hq. induction H as [|a log Ha _ IH]; simpl.
  - reflexivity.
  - destruct (questionIndex a =? q) eqn:E.
    + apply Nat.eqb_eq in E. lia.
    + exact IH.
Qed.

Lemma correctAt_above q n log :
  Forall (fun a => questionIndex a <= n) log -> n < q -> correctAt q log = [].
Proof.
  intros H Hq. induction H as [|a log Ha _ IH]; simpl.
  - reflexivity.
  - destruct (questionIndex a =? q) eqn:E.
    + apply Nat.eqb_eq in E. lia.
    + now rewrite andb_false_r.
Qed.

Lemma correctAt_length q log :
  NoDup (map questionIndex (correctAttempts log)) ->
  length (correctAt q log) <= 1.
Proof.
  induction log as [|a log IH]; simpl; intros H.
  - lia.
  - destruct (isCorrect a); simpl in *.
    + inversion H as [|x l Hnot Hnd]; subst.
      destruct (questionIndex a =? q) eqn:E.
      * apply Nat.eqb_eq in E. subst q.
        apply correctAt_nil_iff in Hnot. rewrite Hnot. simpl. lia.
      * now apply IH.
    + now apply IH.
Qed.

Lemma existsb_correct_iff q log :
  existsb (fun a => isCorrect a && (questionIndex a =? q)) log = true <->
  In q (map questionIndex (correctAttempts log)).
Proof.
  induction log as [|a log IH]; simpl.
  - split; [discriminate | tauto].
  - rewrite orb_true_iff, IH. destruct (isCorrect a); simpl.
    + rewrite Nat.eqb_eq. tauto.
    + split; [intros [H|H]; [discriminate | exact H] | tauto].
Qed.

Lemma answeredQuestions_length log :
  NoDup (map questionIndex (correctAttempts log)) ->
  Forall (fun a => questionIndex a < questionCount) log ->
  length (answeredQuestions log) = length (correctAttempts log).
Proof.
  intros Hnd Hlt.
  rewrite <- (length_map questionIndex (correctAttempts log)).
  apply Permutation_length, NoDup_Permutation.
  - apply NoDup_filter, seq_NoDup.
  - exact Hnd.
  - intros q. unfold answeredQuestions.
    rewrite filter_In, in_seq, existsb_correct_iff. split; [tauto|].
    intros Hq. split; [|exact Hq]. split; [lia|]. simpl.
    apply in_map_iff in Hq as [a [Ea Ha]].
    apply filter_In in Ha as [Ha _].
    rewrite Forall_forall in Hlt. specialize (Hlt a Ha). lia.
Qed.

Lemma correctIndices_length log :
  NoDup (map questionIndex (correctAttempts log)) ->
  length (correctIndices log) = length (correctAttempts log).
Proof.
  intros H. unfold correctIndices.
  rewrite (nodup_fixed_point Nat.eq_dec H). apply length_map.
Qed.

Lemma NoDup_snoc (l : list nat) x : NoDup l -> ~ In x l -> NoDup (l ++ [x]).
Proof.
  intros Hl Hx. induction Hl as [|y l Hy Hl IH]; simpl.
  - constructor; [tauto | constructor].
  - constructor.
    + rewrite in_app_iff. simpl. intros [H|[H|[]]]; [tauto|].
      apply Hx. left. symmetry. exact H.
    + apply IH. intros H. apply Hx. right. exact H.
Qed.

Lemma indexSorted_snoc log a :
  indexSorted log ->
  Forall (fun b => questionIndex b <= questionIndex a) log ->
  indexSorted (log ++ [a]).
Proof.
  unfold indexSorted. intros Hs Hb.
  induction log as [|b log IH]; simpl in *.
  - constructor; constructor.
  - inversion Hs as [|x l Hl Hx]; subst.
    inversion Hb as [|y l' Hy Hb']; subst.
    constructor.
    + now apply IH.
    + rewrite map_app, Forall_app. split; [exact Hx|].
      constructor; [exact Hy | constructor].
Qed.

Lemma isPrefix_refl {A} (l : list A) : isPrefix l l.
Proof. exists []. now rewrite app_nil_r. Qed.

Lemma isPrefix_trans {A} (l l' l'' : list A) :
  isPrefix l l' -> isPrefix l' l'' -> isPrefix l l''.
Proof.
  intros [k E] [k' E']. exists (k ++ k'). now rewrite E', E, app_assoc.
Qed.

Lemma isPrefix_snoc {A} (l : list A) x : isPrefix l (l ++ [x]).
Proof. now exists [x]. Qed.

End LogFacts.

(** ** The handlers never raise on a valid question index *)

Lemma quizData_lookup i :
  i < questionCount -> exists q, nth_error quizData i = Some q.
Proof.
  intros H. destruct (nth_error quizData i) as [q|] eqn:E.
  - now exists q.
  - apply nth_error_None in E. unfold questionCount in H. lia.
Qed.

Lemma questionCount_value : questionCount = 10.
Proof. reflexivity. Qed.

(** What one accepted submission does to each state cell. *)
Lemma handleAnswerSelection_accepts answer s :
  answeredCorrectly s = false ->
  currentQuestion s < questionCount ->
  exists q s',
    nth_error quizData (currentQuestion s) = Some q /\
    handleAnswerSelection answer s = Some s' /\
    attempts s' =
      attempts s ++
        [{| attemptQuestion := question q; selectedAnswer := answer;
            isCorrect := judge answer (correctAnswer q);
            attemptNumber := currentAttempt s + 1;
            questionIndex := currentQuestion s |}] /\
    answeredCorrectly s' = judge answer (correctAnswer q) /\
    score s' = score s + (if judge answer (correctAnswer q) then 1 else 0) /\
    currentAttempt s' = currentAttempt s + 1 /\
    currentQuestion s' = currentQuestion s /\
    timer s' = timer s /\
    quizFinished s' = quizFinished s /\
    textAnswer s' = textAnswer s /\
    feedback s' =
      (if judge answer (correctAnswer q) then "Correct!" else "Incorrect, try again!").
Proof.
  intros Hopen Hidx. destruct (quizData_lookup _ Hidx) as [q Hq].
  exists q. unfold handleAnswerSelection. rewrite Hopen, Hq. cbv zeta.
  destruct (judge answer (correctAnswer q)); eexists;
    (split; [reflexivity|]); (split; [reflexivity|]); simpl;
    rewrite ?Nat.add_0_r, ?Hopen; repeat split; reflexivity.
Qed.

(** What [handleNextQuestion] does to each state cell. *)
Lemma handleNextQuestion_cells s :
  let s' := handleNextQuestion s in
  attempts s' = attempts s /\ score s' = score s /\
  currentAttempt s' = 0 /\ timer s' = 30%Z /\
  answeredCorrectly s' = false /\ feedback s' = "" /\ textAnswer s' = [] /\
  (currentQuestion s + 1 < questionCount ->
     currentQuestion s' = currentQuestion s + 1 /\
     quizFinished s' = quizFinished s) /\
  (questionCount <= currentQuestion s + 1 ->
     currentQuestion s' = currentQuestion s /\ quizFinished s' = true).
Proof.
  unfold handleNextQuestion. rewrite questionCount_value.
  change (length quizData) with 10.
  destruct (currentQuestion s + 1 <? 10) eqn:E; simpl;
    [apply Nat.ltb_lt in E | apply Nat.ltb_ge in E];
    repeat split; try reflexivity; intros; lia.
Qed.

(** ** The session invariant *)

Lemma Invariant_initial : Invariant initialState.
Proof.
  constructor; simpl; try reflexivity; try constructor; try lia; discriminate.
Qed.

Lemma Invariant_handleAnswerSelection answer s s' :
  Invariant s -> quizFinished s = false ->
  handleAnswerSelection answer s = Some s' -> Invariant s'.
Proof.
  intros I Hrun H.
  destruct (answeredCorrectly s) eqn:Hopen.
  - unfold handleAnswerSelection in H. rewrite Hopen in H.
    injection H as <-. exact I.
  - destruct (handleAnswerSelection_accepts answer s Hopen (inv_index s I))
      as (q & t & Hq & Ht & Hat & Hac & Hsc & Hca & Hcq & Htm & Hqf & _).
    rewrite Ht in H. injection H as <-.
    destruct I as [Iidx Ibound Isorted Iscore Ionce Iopen Icount Itimer Ifin].
    specialize (Iopen Hrun Hopen). specialize (Icount Hrun).
    constructor.
    + now rewrite Hcq.
    + rewrite Hat, Hcq, Forall_app. split; [exact Ibound|].
      constructor; [simpl; lia | constructor].
    + rewrite Hat. apply indexSorted_snoc; [exact Isorted | exact Ibound].
    + rewrite Hsc, Hat, correctAttempts_app, length_app, <- Iscore.
      unfold correctAttempts. simpl.
      destruct (judge answer (correctAnswer q)); reflexivity.
    + rewrite Hat, correctAttempts_app, map_app.
      unfold correctAttempts at 2. simpl.
      destruct (judge answer (correctAnswer q)); simpl.
      * apply NoDup_snoc; [exact Ionce|]. now apply correctAt_nil_iff.
      * now rewrite app_nil_r.
    + intros _ Hopen'. rewrite Hac in Hopen'.
      rewrite Hat, Hcq, correctAt_app, Iopen. simpl. now rewrite Hopen'.
    + intros _. rewrite Hca, Hat, Hcq, attemptsAt_app, length_app, <- Icount.
      simpl. now rewrite Nat.eqb_refl.
    + now rewrite Htm.
    + now rewrite Hqf, Hcq.
Qed.

(** [handleNextQuestion] re-establishes the per-question parts of the
    invariant from the parts that concern the log alone. *)
Lemma handleNextQuestion_establishes s :
  currentQuestion s < questionCount ->
  Forall (fun a => questionIndex a <= currentQuestion s) (attempts s) ->
  indexSorted (attempts s) ->
  score s = length (correctAttempts (attempts s)) ->
  NoDup (map questionIndex (correctAttempts (attempts s))) ->
  (quizFinished s = true -> currentQuestion s + 1 = questionCount) ->
  Invariant (handleNextQuestion s).
Proof.
  intros Iidx Ibound Isorted Iscore Ionce Ifin.
  destruct (handleNextQuestion_cells s)
    as (Hat & Hsc & Hca & Htm & Hac & _ & _ & Hnext & Hlast).
  destruct (Nat.lt_ge_cases (currentQuestion s + 1) questionCount) as [Hlt|Hge].
  - destruct (Hnext Hlt) as [Hcq Hqf].
    constructor; rewrite ?Hat, ?Hsc, ?Hcq, ?Htm; try assumption; try lia.
    + eapply Forall_impl; [|exact Ibound]. simpl. intros; lia.
    + intros _ _. apply (correctAt_above _ (currentQuestion s)); [exact Ibound | lia].
    + intros _. rewrite Hca.
      rewrite (attemptsAt_above _ (currentQuestion s)); [reflexivity | exact Ibound | lia].
    + rewrite Hqf. intros H. specialize (Ifin H). lia.
  - destruct (Hlast Hge) as [Hcq Hqf].
    constructor; rewrite ?Hat, ?Hsc, ?Hcq, ?Htm; try assumption; try lia;
      rewrite Hqf; discriminate.
Qed.

Lemma Invariant_handleNextQuestion s :
  Invariant s -> Invariant (handleNextQuestion s).
Proof.
  intros [Iidx Ibound Isorted Iscore Ionce _ _ _ Ifin].
  now apply handleNextQuestion_establishes.
Qed.

Lemma Invariant_setTimer v s :
  (0 <= v <= 30)%Z -> Invariant s -> Invariant (setTimer v s).
Proof.
  intros Hv [Iidx Ibound Isorted Iscore Ionce Iopen Icount Itimer Ifin].
  constructor; simpl; assumption.
Qed.

Lemma Invariant_timerEffect s s' :
  Invariant s -> timerEffect s = Some s' -> Invariant s'.
Proof.
  intros I H. unfold timerEffect in H.
  destruct (negb (quizFinished s) && negb (answeredCorrectly s)) eqn:G;
    [|injection H as <-; exact I].
  destruct (0 <? timer s)%Z eqn:T.
  - injection H as <-. apply Z.ltb_lt in T.
    apply Invariant_setTimer; [|exact I].
    pose proof (inv_timer s I). lia.
  - destruct (currentAttempt s =? 0) eqn:A.
    + destruct (nth_error quizData (currentQuestion s)) as [q|]; [|discriminate].
      injection H as <-.
      destruct I as [Iidx Ibound Isorted Iscore Ionce _ _ _ Ifin].
      apply handleNextQuestion_establishes; simpl.
      * exact Iidx.
      * rewrite Forall_app. split; [exact Ibound|].
        constructor; [simpl; lia | constructor].
      * apply indexSorted_snoc; [exact Isorted | exact Ibound].
      * rewrite correctAttempts_app, length_app, <- Iscore. simpl. lia.
      * rewrite correctAttempts_app. simpl. now rewrite app_nil_r.
      * exact Ifin.
    + injection H as <-. now apply Invariant_handleNextQuestion.
Qed.

Lemma Invariant_restartQuiz s : Invariant (restartQuiz s).
Proof. exact Invariant_initial. Qed.

Lemma Invariant_perform o s s' :
  Invariant s -> perform o s = Some s' -> Invariant s'.
Proof.
  intros I H. destruct o as [answer| | |]; simpl in H.
  - destruct (quizFinished s) eqn:F; [discriminate|].
    eapply Invariant_handleAnswerSelection; eassumption.
  - eapply Invariant_timerEffect; eassumption.
  - destruct (quizFinished s); [discriminate|].
    injection H as <-. now apply Invariant_handleNextQuestion.
  - destruct (quizFinished s); [|discriminate].
    injection H as <-. apply Invariant_restartQuiz.
Qed.

Lemma Reachable_Invariant s : Reachable s -> Invariant s.
Proof.
  induction 1 as [|s o s' _ IH _ H].
  - exact Invariant_initial.
  - eapply Invariant_perform; eassumption.
Qed.

(** A run of session operations stays within the reachable states. *)
Lemma run_Reachable ops s s' :
  Reachable s -> forallb withinSession ops = true -> run ops s = Some s' ->
  Reachable s'.
Proof.
  revert s. induction ops as [|o ops IH]; simpl; intros s R W H.
  - injection H as <-. exact R.
  - apply andb_true_iff in W as [Wo W].
    destruct (perform o s) as [t|] eqn:P; [|discriminate].
    apply (IH t); [|exact W|exact H].
    eapply Reachable_step; eassumption.
Qed.

Lemma Reachable_Evolves s s' : Reachable s -> Evolves s s' -> Reachable s'.
Proof.
  intros R E. induction E as [|s s' o s'' _ IH W P].
  - exact R.
  - eapply Reachable_step; [apply IH, R | exact W | exact P].
Qed.

(** In a reachable state no operation raises: whatever the component offers
    goes through. *)
Lemma perform_total o s :
  Reachable s -> withinSession o = true -> quizFinished s = false ->
  exists s', perform o s = Some s'.
Proof.
  intros R W F. apply Reachable_Invariant in R.
  pose proof (inv_index s R) as Hidx.
  destruct (quizData_lookup _ Hidx) as [q Hq].
  destruct o as [answer| | |]; simpl; try discriminate; rewrite ?F.
  - unfold handleAnswerSelection. rewrite Hq.
    destruct (answeredCorrectly s); [eauto|].
    cbv zeta. destruct (judge answer (correctAnswer q)); eauto.
  - unfold timerEffect. rewrite Hq.
    repeat match goal with |- context [if ?b then _ else _] => destruct b end; eauto.
  - eauto.
Qed.

Lemma Evolves_trans s s' s'' : Evolves s s' -> Evolves s' s'' -> Evolves s s''.
Proof.
  intros E E'. induction E' as [|s' t o t' _ IH W P].
  - exact E.
  - eapply Evolves_step; [apply IH, E | exact W | exact P].
Qed.

Lemma run_Evolves ops s s' :
  forallb withinSession ops = true -> run ops s = Some s' -> Evolves s s'.
Proof.
  revert s. induction ops as [|o ops IH]; simpl; intros s W H.
  - injection H as <-. constructor.
  - apply andb_true_iff in W as [Wo W].
    destruct (perform o s) as [t|] eqn:P; [|discriminate].
    apply (Evolves_trans s t s').
    + eapply Evolves_step; [constructor | exact Wo | exact P].
    + now apply IH.
Qed.

(** ** Score and attempt log *)

Lemma perform_log o s s' :
  withinSession o = true -> perform o s = Some s' ->
  isPrefix (attempts s) (attempts s').
Proof.
  intros W H. destruct o as [answer| | |]; simpl in H; try discriminate.
  - destruct (quizFinished s); [discriminate|].
    unfold handleAnswerSelection in H.
    destruct (answeredCorrectly s); [injection H as <-; apply isPrefix_refl|].
    destruct (nth_error quizData (currentQuestion s)) as [q|]; [|discriminate].
    cbv zeta in H.
    destruct (judge answer (correctAnswer q)); injection H as <-; simpl;
      apply isPrefix_snoc.
  - unfold timerEffect in H.
    destruct (negb (quizFinished s) && negb (answeredCorrectly s));
      [|injection H as <-; apply isPrefix_refl].
    destruct (0 <? timer s)%Z; [injection H as <-; apply isPrefix_refl|].
    destruct (currentAttempt s =? 0).
    + destruct (nth_error quizData (currentQuestion s)) as [q|]; [|discriminate].
      injection H as <-.
      destruct (handleNextQuestion_cells
                  (setAttempts (attempts s ++ [noAnswerRecord q (currentQuestion s)]) s))
        as [-> _].
      simpl. apply isPrefix_snoc.
    + injection H as <-.
      destruct (handleNextQuestion_cells s) as [-> _]. apply isPrefix_refl.
  - destruct (quizFinished s); [discriminate|]. injection H as <-.
    destruct (handleNextQuestion_cells s) as [-> _]. apply isPrefix_refl.
Qed.

Lemma handleAnswerSelection_score answer s s' :
  handleAnswerSelection answer s = Some s' ->
  score s' = score s \/ score s' = score s + 1.
Proof.
  unfold handleAnswerSelection. intros H.
  destruct (answeredCorrectly s); [injection H as <-; now left|].
  destruct (nth_error quizData (currentQuestion s)) as [q|]; [|discriminate].
  cbv zeta in H.
  destruct (judge answer (correctAnswer q)); injection H as <-; simpl; auto.
Qed.

Lemma timerEffect_score s s' : timerEffect s = Some s' -> score s' = score s.
Proof.
  unfold timerEffect. intros H.
  destruct (negb (quizFinished s) && negb (answeredCorrectly s));
    [|now injection H as <-].
  destruct (0 <? timer s)%Z; [now injection H as <-|].
  destruct (currentAttempt s =? 0).
  - destruct (nth_error quizData (currentQuestion s)) as [q|]; [|discriminate].
    injection H as <-.
    now destruct (handleNextQuestion_cells
                (setAttempts (attempts s ++ [noAnswerRecord q (currentQuestion s)]) s))
      as (_ & -> & _).
  - injection H as <-. now destruct (handleNextQuestion_cells s) as (_ & -> & _).
Qed.

Lemma handleNextQuestion_score s : score (handleNextQuestion s) = score s.
Proof. now destruct (handleNextQuestion_cells s) as (_ & -> & _). Qed.

Lemma perform_score o s s' :
  withinSession o = true -> perform o s = Some s' -> score s <= score s'.
Proof.
  intros W H. destruct o as [answer| | |]; simpl in H; try discriminate.
  - destruct (quizFinished s); [discriminate|].
    destruct (handleAnswerSelection_score _ _ _ H); lia.
  - rewrite (timerEffect_score _ _ H). lia.
  - destruct (quizFinished s); [discriminate|]. injection H as <-.
    rewrite handleNextQuestion_score. lia.
Qed.

(** C1. In every state reachable from the initial state by submitAnswer, tick
    and advance, the score is the number of distinct questions with a correct
    attempt in the log (counted over the questions of the quiz, and counted
    over the distinct indices of the correct attempts), and no question has
    more than one correct attempt. *)
Theorem score_counts_answered_questions s :
  Reachable s ->
  score s = length (answeredQuestions (attempts s)) /\
  score s = length (correctIndices (attempts s)) /\
  (forall q, length (correctAt q (attempts s)) <= 1).
Proof.
  intros R. apply Reachable_Invariant in R.
  destruct R as [Iidx Ibound Isorted Iscore Ionce _ _ _ _].
  repeat split.
  - rewrite Iscore. symmetry. apply answeredQuestions_length; [exact Ionce|].
    eapply Forall_impl; [|exact Ibound]. simpl. intros; lia.
  - rewrite Iscore. symmetry. now apply correctIndices_length.
  - intros q. now apply correctAt_length.
Qed.

(** C8. Within one session the attempt log only grows at its end: the log of
    an earlier state is a prefix of the log of any later state, and in every
    reachable state the question indices of the log are non-decreasing in log
    order. *)
Theorem attempt_log_append_only s s' :
  Reachable s -> Evolves s s' ->
  isPrefix (attempts s) (attempts s') /\
  indexSorted (attempts s) /\ indexSorted (attempts s').
Proof.
  intros R E. split; [|split].
  - clear R. induction E as [|s s' o s'' _ IH W P].
    + apply isPrefix_refl.
    + eapply isPrefix_trans; [exact IH|]. eapply perform_log; eassumption.
  - apply Reachable_Invariant in R. apply (inv_sorted s R).
  - apply (inv_sorted s'), Reachable_Invariant.
    eapply Reachable_Evolves; eassumption.
Qed.

(** C10. Within one session the score never decreases: a later state has a
    score at least that of an earlier one; a submission leaves the score as it
    is or adds exactly one; the timer and the question transition leave it as
    it is. *)
Theorem score_monotone s s' :
  Evolves s s' ->
  score s <= score s' /\
  (forall answer t,
     handleAnswerSelection answer s' = Some t ->
     score t = score s' \/ score t = score s' + 1) /\
  (forall t, timerEffect s' = Some t -> score t = score s') /\
  score (handleNextQuestion s') = score s'.
Proof.
  intros E. split; [|split; [|split]].
  - induction E as [|s s' o s'' _ IH W P].
    + lia.
    + pose proof (perform_score _ _ _ W P). lia.
  - intros answer t. apply handleAnswerSelection_score.
  - intros t. apply timerEffect_score.
  - apply handleNextQuestion_score.
Qed.

(** ** Judging an answer *)

(** C2. A submission on an open question is logged as correct exactly when the
    submitted string and the question's correct answer are equal after
    trimming the white space around each and lower-casing both, whatever the
    engine's [toLowerCase]; the same holds with equality read as in the spec
    (equal cores once padding and case are ignored).  With a [toLowerCase]
    that folds ASCII as the real one does, [" Mercury "] and ["MERCURY"] are
    judged correct for the first question, and a part of the answer, the
    answer with something added, or the answer with white space inside are
    not. *)
Theorem submitAnswer_judges_normalized :
  (forall answer s q,
     answeredCorrectly s = false ->
     nth_error quizData (currentQuestion s) = Some q ->
     exists s' r,
       handleAnswerSelection answer s = Some s' /\
       attempts s' = attempts s ++ [r] /\
       selectedAnswer r = answer /\
       answeredCorrectly s' = isCorrect r /\
       (isCorrect r = true <->
        toLowerCase (trim answer) = toLowerCase (trim (correctAnswer q))) /\
       (isCorrect r = true <-> equalAfterNormalization answer (correctAnswer q)))
  /\
  (FoldsAscii CF ->
   forall answer,
     In answer [js " Mercury "; js "MERCURY"] ->
     exists s',
       handleAnswerSelection answer initialState = Some s' /\
       answeredCorrectly s' = true /\ score s' = 1)
  /\
  (FoldsAscii CF ->
   forall answer,
     In answer [js "Merc"; js "Mercury!"; js "Mer cury"; js "ercury";
                js "Mercur"; js ""] ->
     exists s',
       handleAnswerSelection answer initialState = Some s' /\
       answeredCorrectly s' = false /\ score s' = 0).
Proof.
  assert (First : forall answer,
            exists s',
              handleAnswerSelection answer initialState = Some s' /\
              answeredCorrectly s' = judge answer (js "Mercury") /\
              score s' = if judge answer (js "Mercury") then 1 else 0).
  { intros answer.
    destruct (handleAnswerSelection_accepts answer initialState eq_refl)
      as (q & s' & Hq & Hs' & _ & Hac & Hsc & _).
    - apply Nat.ltb_lt. reflexivity.
    - injection Hq as <-. exists s'. auto. }
  split; [|split].
  - intros answer s q Hopen Hq.
    assert (Hidx : currentQuestion s < questionCount).
    { apply nth_error_Some. rewrite Hq. discriminate. }
    destruct (handleAnswerSelection_accepts answer s Hopen Hidx)
      as (q' & s' & Hq' & Hs' & Hat & Hac & _).
    rewrite Hq in Hq'. injection Hq' as <-.
    eexists s', _. split; [exact Hs'|]. split; [exact Hat|]. simpl.
    split; [reflexivity|]. split; [exact Hac|]. split.
    + unfold judge. apply strictEquals_eq.
    + apply judge_spec.
  - intros FA answer Hin.
    destruct (First answer) as (s' & Hs' & Hac & Hsc).
    exists s'. split; [exact Hs'|]. rewrite Hac, Hsc.
    destruct Hin as [<-|[<-|[]]];
      rewrite (judge_ascii _ _ FA) by (vm_compute; reflexivity);
      vm_compute; split; reflexivity.
  - intros FA answer Hin.
    destruct (First answer) as (s' & Hs' & Hac & Hsc).
    exists s'. split; [exact Hs'|]. rewrite Hac, Hsc.
    destruct Hin as [<-|[<-|[<-|[<-|[<-|[<-|[]]]]]]];
      rewrite (judge_ascii _ _ FA) by (vm_compute; reflexivity);
      vm_compute; split; reflexivity.
Qed.

(** ** Question transitions *)

Lemma handleNextQuestion_advanced s :
  currentQuestion s < questionCount ->
  advanced s (handleNextQuestion s) /\ freshQuestion (handleNextQuestion s).
Proof.
  intros Hidx.
  destruct (handleNextQuestion_cells s)
    as (Hat & Hsc & Hca & Htm & Hac & Hfb & Hta & Hnext & Hlast).
  split; [|repeat split; assumption].
  destruct (Nat.lt_ge_cases (currentQuestion s + 1) questionCount) as [Hlt|Hge].
  - left. split; [exact Hlt|]. now apply Hnext.
  - right. split; [lia|]. now apply Hlast.
Qed.

(** C3. In a reachable state of a running quiz: pressing Next or Skip moves
    to the next question (or to the summary from the last one) and appends
    nothing.  A firing of the timer effect that finds the time used up makes
    the same transition and appends exactly one record, with answer
    ["No Answer"], incorrect, attempt number 1, when no attempt was made on
    the current question, and appends nothing when an attempt was made.  A
    firing that does not find the time used up is no transition and appends
    nothing.  The attempt counter is zero exactly when the log has no attempt
    on the current question. *)
Theorem synthetic_record_only_on_idle_expiry s :
  Reachable s -> quizFinished s = false ->
  (currentAttempt s = 0 <-> attemptsAt (currentQuestion s) (attempts s) = []) /\
  (exists s',
     perform advance s = Some s' /\ advanced s s' /\ freshQuestion s' /\
     attempts s' = attempts s) /\
  (exists s',
     perform tick s = Some s' /\
     if expired s then
       advanced s s' /\ freshQuestion s' /\
       if currentAttempt s =? 0
       then exists r, attempts s' = attempts s ++ [r] /\
                      synthetic (currentQuestion s) r
       else attempts s' = attempts s
     else
       attempts s' = attempts s /\ currentQuestion s' = currentQuestion s /\
       quizFinished s' = false).
Proof.
  intros R F. apply Reachable_Invariant in R.
  pose proof (inv_index s R) as Hidx.
  destruct (quizData_lookup _ Hidx) as [q Hq].
  split; [|split].
  - rewrite (inv_count s R F). split.
    + now apply length_zero_iff_nil.
    + intros ->. reflexivity.
  - exists (handleNextQuestion s). simpl. rewrite F.
    split; [reflexivity|].
    destruct (handleNextQuestion_advanced s Hidx) as [A Fr].
    split; [exact A|]. split; [exact Fr|].
    now destruct (handleNextQuestion_cells s) as [-> _].
  - unfold expired. simpl. unfold timerEffect. rewrite F, Hq. simpl.
    destruct (answeredCorrectly s); simpl.
    + exists s. auto.
    + destruct (0 <? timer s)%Z; simpl.
      * eexists. split; [reflexivity|]. simpl. auto.
      * destruct (currentAttempt s =? 0).
        -- eexists. split; [reflexivity|].
           set (t := setAttempts _ s).
           destruct (handleNextQuestion_advanced t Hidx) as [A Fr].
           split; [exact A|]. split; [exact Fr|].
           exists (noAnswerRecord q (currentQuestion s)).
           destruct (handleNextQuestion_cells t) as [-> _].
           split; [reflexivity|]. repeat split.
        -- eexists. split; [reflexivity|].
           destruct (handleNextQuestion_advanced s Hidx) as [A Fr].
           split; [exact A|]. split; [exact Fr|].
           now destruct (handleNextQuestion_cells s) as [-> _].
Qed.

Lemma handleAnswerSelection_frame answer s s' :
  handleAnswerSelection answer s = Some s' ->
  currentQuestion s' = currentQuestion s /\ quizFinished s' = quizFinished s /\
  timer s' = timer s /\ textAnswer s' = textAnswer s.
Proof.
  unfold handleAnswerSelection. intros H.
  destruct (answeredCorrectly s); [injection H as <-; auto|].
  destruct (nth_error quizData (currentQuestion s)) as [q|]; [|discriminate].
  cbv zeta in H.
  destruct (judge answer (correctAnswer q)); injection H as <-; simpl; auto.
Qed.

(** C7, amended. In every reachable state the question index is a valid
    index (below the number of questions, so never equal to it, finished or
    not); a finished quiz rests on the last index; from a question other than
    the last, advance adds exactly one to the index; from the last question,
    advance keeps the index and finishes the quiz; and no operation of a
    session moves the index other than by zero or one. *)
Theorem question_index_progress s :
  Reachable s ->
  currentQuestion s < questionCount /\
  (quizFinished s = true -> currentQuestion s + 1 = questionCount) /\
  (currentQuestion s + 1 < questionCount ->
     currentQuestion (handleNextQuestion s) = currentQuestion s + 1 /\
     quizFinished (handleNextQuestion s) = quizFinished s) /\
  (currentQuestion s + 1 = questionCount ->
     currentQuestion (handleNextQuestion s) = currentQuestion s /\
     quizFinished (handleNextQuestion s) = true) /\
  (forall o s',
     withinSession o = true -> perform o s = Some s' ->
     currentQuestion s' = currentQuestion s \/
     currentQuestion s' = currentQuestion s + 1).
Proof.
  intros R.
  assert (Step : forall t, currentQuestion (handleNextQuestion t) = currentQuestion t \/
                           currentQuestion (handleNextQuestion t) = currentQuestion t + 1).
  { intros t. destruct (handleNextQuestion_cells t) as (_ & _ & _ & _ & _ & _ & _ & Hn & Hl).
    destruct (Nat.lt_ge_cases (currentQuestion t + 1) questionCount) as [Hlt|Hge].
    - right. now apply Hn.
    - left. now apply Hl. }
  apply Reachable_Invariant in R.
  destruct (handleNextQuestion_cells s) as (_ & _ & _ & _ & _ & _ & _ & Hn & Hl).
  split; [apply (inv_index s R)|]. split; [apply (inv_finished s R)|].
  split; [exact Hn|]. split; [intros E; apply Hl; lia|].
  intros o s' W P. destruct o as [answer| | |]; simpl in P; try discriminate.
  - destruct (quizFinished s); [discriminate|].
    left. now apply (handleAnswerSelection_frame answer).
  - unfold timerEffect in P.
    destruct (negb (quizFinished s) && negb (answeredCorrectly s));
      [|injection P as <-; now left].
    destruct (0 <? timer s)%Z; [injection P as <-; now left|].
    destruct (currentAttempt s =? 0).
    + destruct (nth_error quizData (currentQuestion s)) as [q|]; [|discriminate].
      injection P as <-. apply (Step (setAttempts _ s)).
    + injection P as <-. apply Step.
  - destruct (quizFinished s); [discriminate|]. injection P as <-. apply Step.
Qed.

(** ** Restarting, and submitting once the answer is already correct *)

Lemma log_eqb_refl l : log_eqb l l = true.
Proof.
  induction l as [|a l IH]; simpl; [reflexivity|].
  unfold attemptRecord_eqb.
  now rewrite String.eqb_refl, strictEquals_refl, Bool.eqb_reflx, !Nat.eqb_refl, IH.
Qed.

Lemma historyEffect_unchanged e s b : historyEffect e s s b = b.
Proof.
  unfold historyEffect, historyDepsChanged.
  now rewrite Bool.eqb_reflx, Nat.eqb_refl, log_eqb_refl.
Qed.

Lemma historyEffect_running e s s' b :
  quizFinished s' = false -> historyEffect e s s' b = b.
Proof.
  unfold historyEffect. intros ->. now rewrite andb_false_r.
Qed.

(** C5. Whatever the state, [restartQuiz] yields the initial state: score 0,
    empty log, question index 0, timer 30, not finished, attempt counter 0 (and
    no feedback, not answered, empty input); the commit that follows saves
    nothing: the browser state is untouched, also through the Retry button,
    which the page offers on the summary only. *)
Theorem restartQuiz_resets s e b :
  restartQuiz s = initialState /\
  score (restartQuiz s) = 0 /\
  attempts (restartQuiz s) = [] /\
  currentQuestion (restartQuiz s) = 0 /\
  timer (restartQuiz s) = 30%Z /\
  quizFinished (restartQuiz s) = false /\
  currentAttempt (restartQuiz s) = 0 /\
  historyEffect e s (restartQuiz s) b = b /\
  dispatch restart e {| session := s; browser := b |}
  = (if quizFinished s
     then Some {| session := initialState; browser := b |}
     else None).
Proof.
  repeat split.
  - now apply historyEffect_running.
  - unfold dispatch. simpl. destruct (quizFinished s); [|reflexivity].
    now rewrite historyEffect_running.
Qed.

(** C6. A submission made while the current question is already answered
    correctly changes nothing: the handler returns the very same state (log,
    score, attempt counter, feedback and every other cell), and the commit
    saves nothing. *)
Theorem submit_after_correct_is_noop answer s e b :
  answeredCorrectly s = true ->
  handleAnswerSelection answer s = Some s /\
  historyEffect e s s b = b.
Proof.
  intros H. split.
  - unfold handleAnswerSelection. now rewrite H.
  - apply historyEffect_unchanged.
Qed.

(** ** Persistence *)

Lemma WorldReachable_Invariant w : WorldReachable w -> Invariant (session w).
Proof.
  induction 1 as [|w o e w' _ IH D].
  - exact Invariant_initial.
  - unfold dispatch in D.
    destruct (perform o (session w)) as [s'|] eqn:P; [|discriminate].
    injection D as <-. simpl. eapply Invariant_perform; eassumption.
Qed.

(** From a finished quiz the only change of state is the restart. *)
Lemma perform_finished o s s' :
  quizFinished s = true -> perform o s = Some s' ->
  s' = s \/ quizFinished s' = false.
Proof.
  intros F P. destruct o as [answer| | |]; simpl in P; rewrite ?F in P;
    try discriminate.
  - unfold timerEffect in P. rewrite F in P. simpl in P.
    injection P as <-. now left.
  - injection P as <-. now right.
Qed.

Lemma handleNextQuestion_finishes t :
  currentQuestion t < questionCount -> quizFinished t = false ->
  quizFinished (handleNextQuestion t) = true ->
  currentQuestion t + 1 = questionCount.
Proof.
  intros Hidx F H.
  destruct (handleNextQuestion_cells t) as (_ & _ & _ & _ & _ & _ & _ & Hn & _).
  destruct (Nat.lt_ge_cases (currentQuestion t + 1) questionCount) as [Hlt|Hge];
    [|lia].
  destruct (Hn Hlt) as [_ E]. congruence.
Qed.

(** The transition that finishes the quiz starts on the last question and
    keeps the score. *)
Lemma perform_finishes o s s' :
  currentQuestion s < questionCount -> quizFinished s = false ->
  perform o s = Some s' -> quizFinished s' = true ->
  currentQuestion s + 1 = questionCount /\ score s' = score s.
Proof.
  intros Hidx F P F'. destruct o as [answer| | |]; simpl in P; rewrite ?F in P;
    try discriminate.
  - destruct (handleAnswerSelection_frame _ _ _ P) as (_ & E & _). congruence.
  - split; [|now apply timerEffect_score].
    unfold timerEffect in P.
    destruct (negb (quizFinished s) && negb (answeredCorrectly s));
      [|injection P as <-; congruence].
    destruct (0 <? timer s)%Z; [injection P as <-; simpl in F'; congruence|].
    destruct (currentAttempt s =? 0).
    + destruct (nth_error quizData (currentQuestion s)) as [q|]; [|discriminate].
      injection P as <-.
      now apply handleNextQuestion_finishes in F'.
    + injection P as <-. now apply handleNextQuestion_finishes.
  - injection P as <-. split.
    + now apply handleNextQuestion_finishes.
    + apply handleNextQuestion_score.
Qed.

(** C4, amended. The operation that takes a running quiz to the finished
    state starts on the last of the ten questions and makes exactly one save
    request, for an entry holding the clock's ISO timestamp, the final score,
    totalQuestions 10 and the whole attempt log; that entry is appended to the
    object store, after the entries already there, when the transaction
    completes, and nothing is appended when the request fails.  No other
    operation touches the browser state, so an entry once written is never
    updated. *)
Theorem history_written_once_on_finish o e w w' :
  WorldReachable w -> dispatch o e w = Some w' ->
  if negb (quizFinished (session w)) && quizFinished (session w') then
    currentQuestion (session w) + 1 = questionCount /\
    questionCount = 10 /\
    score (session w') = score (session w) /\
    openRequests (browser w') = openRequests (browser w) + 1 /\
    quizHistory (browser w') =
      quizHistory (browser w) ++
        match db e with
        | transactionComplete =>
            [{| timestamp := now e;
                historyScore := score (session w');
                totalQuestions := 10;
                historyAttempts := attempts (session w') |}]
        | _ => []
        end
  else browser w' = browser w.
Proof.
  intros R D. apply WorldReachable_Invariant in R.
  unfold dispatch in D.
  destruct (perform o (session w)) as [s'|] eqn:P; [|discriminate].
  injection D as <-. simpl.
  destruct (quizFinished (session w)) eqn:F; simpl.
  - destruct (perform_finished _ _ _ F P) as [->|F'].
    + apply historyEffect_unchanged.
    + now apply historyEffect_running.
  - destruct (quizFinished s') eqn:F'.
    + destruct (perform_finishes _ _ _ (inv_index _ R) F P F') as [L Sc].
      split; [exact L|]. split; [reflexivity|]. split; [exact Sc|].
      unfold historyEffect, historyDepsChanged. rewrite F, F'. simpl.
      unfold saveQuizHistory, historyOf.
      destruct (db e); simpl; rewrite ?app_nil_r; auto.
    + now apply historyEffect_running.
Qed.

Lemma dispatchAll_WorldReachable steps w w' :
  WorldReachable w -> dispatchAll steps w = Some w' -> WorldReachable w'.
Proof.
  revert w. induction steps as [|[o e] steps IH]; simpl; intros w Rw H.
  - injection H as <-. exact Rw.
  - destruct (dispatch o e w) as [w1|] eqn:D; [|discriminate].
    apply (IH w1); [|exact H]. eapply WorldReachable_step; eassumption.
Qed.


(** ** The page's events are session operations *)

Lemma handleNextQuestion_forgetText s :
  handleNextQuestion (forgetText s) = forgetText (handleNextQuestion s).
Proof.
  unfold handleNextQuestion, forgetText.
  change (currentQuestion (setTextAnswer [] s)) with (currentQuestion s).
  destruct (currentQuestion s + 1 <? length quizData); reflexivity.
Qed.

Lemma perform_forgetText o s s' :
  withinSession o = true -> perform o s = Some s' ->
  perform o (forgetText s) = Some (forgetText s').
Proof.
  intros W P. destruct o as [answer| | |]; simpl in *; try discriminate.
  - destruct (quizFinished s); [discriminate|].
    unfold handleAnswerSelection in *. simpl.
    destruct (answeredCorrectly s); [now injection P as <-|].
    destruct (nth_error quizData (currentQuestion s)) as [q|]; [|discriminate].
    cbv zeta in *.
    destruct (judge answer (correctAnswer q)); now injection P as <-.
  - unfold timerEffect in *. simpl.
    destruct (negb (quizFinished s) && negb (answeredCorrectly s));
      [|now injection P as <-].
    destruct (0 <? timer s)%Z; [now injection P as <-|].
    destruct (currentAttempt s =? 0).
    + destruct (nth_error quizData (currentQuestion s)) as [q|]; [|discriminate].
      injection P as <-. f_equal.
      apply (handleNextQuestion_forgetText (setAttempts _ s)).
    + injection P as <-. f_equal. apply handleNextQuestion_forgetText.
  - destruct (quizFinished s); [discriminate|].
    injection P as <-. f_equal. apply handleNextQuestion_forgetText.
Qed.

(** Each event of the page either only edits the input buffer or is one of
    the session operations, up to the contents of the buffer. *)
Lemma uiFire_refines e s s' :
  withinSessionUi e = true -> uiFire e s = Some s' ->
  forgetText s' = forgetText s \/
  exists o s'', withinSession o = true /\ perform o s = Some s'' /\
                forgetText s'' = forgetText s'.
Proof.
  intros W U. unfold uiFire in U.
  destruct (quizFinished s) eqn:F; [destruct e; discriminate|].
  destruct (nth_error quizData (currentQuestion s)) as [q|]; [|discriminate].
  destruct e as [i|value| | | |]; try discriminate.
  - destruct (options q) as [opts|]; [|discriminate].
    destruct (nth_error opts i) as [option|]; [|discriminate].
    right. exists (submitAnswer option), s'. simpl. rewrite F. auto.
  - destruct (options q); [discriminate|].
    destruct (answeredCorrectly s); [discriminate|].
    injection U as <-. now left.
  - destruct (options q); [discriminate|].
    destruct (answeredCorrectly s); [discriminate|].
    destruct (strictEquals (trim (textAnswer s)) []); [discriminate|].
    simpl in U.
    destruct (handleAnswerSelection (textAnswer s) s) as [s1|] eqn:H;
      [|discriminate].
    injection U as <-. right. exists (submitAnswer (textAnswer s)), s1.
    simpl. rewrite F. auto.
  - right. exists advance, s'. simpl. rewrite F.
    destruct (options q); injection U as <-; auto.
  - right. exists tick, s'. simpl. destruct (options q); auto.
Qed.

(** Every state the page can be brought to within one session is, up to the
    input buffer, a reachable state of the session operations. *)
Lemma UiReachable_Reachable s : UiReachable s -> Reachable (forgetText s).
Proof.
  induction 1 as [|s e s' _ IH W U].
  - exact Reachable_initial.
  - destruct (uiFire_refines _ _ _ W U) as [->|(o & s'' & Wo & P & <-)].
    + exact IH.
    + eapply Reachable_step; [exact IH | exact Wo |].
      now apply perform_forgetText.
Qed.

(** So the score of the page counts the questions answered correctly. *)
Lemma UiReachable_score s :
  UiReachable s -> score s = length (answeredQuestions (attempts s)).
Proof.
  intros U. apply UiReachable_Reachable in U.
  apply Reachable_Invariant in U.
  destruct U as [Iidx Ibound _ Iscore Ionce _ _ _ _]. simpl in *.
  rewrite Iscore. symmetry. apply answeredQuestions_length; [exact Ionce|].
  eapply Forall_impl; [|exact Ibound]. simpl. intros; lia.
Qed.

(** * Further properties of the component *)

(** ** How one operation changes the log *)

(** One session operation leaves the log as it is or appends one record for
    the current question, numbered one above the attempt counter: the record
    of a submission, or the timer's record when no attempt was made. *)
Lemma perform_appends o s s' :
  withinSession o = true -> perform o s = Some s' ->
  attempts s' = attempts s \/
  exists q r,
    attempts s' = attempts s ++ [r] /\
    quizFinished s = false /\ answeredCorrectly s = false /\
    nth_error quizData (currentQuestion s) = Some q /\
    questionIndex r = currentQuestion s /\
    attemptQuestion r = question q /\
    attemptNumber r = currentAttempt s + 1 /\
    (isCorrect r = judge (selectedAnswer r) (correctAnswer q) /\
     o = submitAnswer (selectedAnswer r)
     \/
     r = noAnswerRecord q (currentQuestion s) /\ currentAttempt s = 0 /\ o = tick).
Proof.
  intros W P. destruct o as [answer| | |]; simpl in P; try discriminate.
  - destruct (quizFinished s) eqn:F; [discriminate|].
    unfold handleAnswerSelection in P.
    destruct (answeredCorrectly s) eqn:A; [injection P as <-; now left|].
    destruct (nth_error quizData (currentQuestion s)) as [q|] eqn:Hq; [|discriminate].
    cbv zeta in P. right. exists q.
    destruct (judge answer (correctAnswer q)) eqn:J; injection P as <-; simpl;
      eexists; (split; [reflexivity|]); simpl; rewrite J; repeat split; auto.
  - unfold timerEffect in P.
    destruct (quizFinished s) eqn:F; simpl in P; [injection P as <-; now left|].
    destruct (answeredCorrectly s) eqn:A; simpl in P; [injection P as <-; now left|].
    destruct (0 <? timer s)%Z; [injection P as <-; now left|].
    destruct (currentAttempt s =? 0) eqn:C.
    + destruct (nth_error quizData (currentQuestion s)) as [q|] eqn:Hq; [|discriminate].
      injection P as <-. right. exists q, (noAnswerRecord q (currentQuestion s)).
      destruct (handleNextQuestion_cells
                  (setAttempts (attempts s ++ [noAnswerRecord q (currentQuestion s)]) s))
        as [-> _].
      apply Nat.eqb_eq in C. rewrite C. simpl. repeat split; auto.
    + injection P as <-. left. now destruct (handleNextQuestion_cells s) as [-> _].
  - destruct (quizFinished s); [discriminate|]. injection P as <-.
    left. now destruct (handleNextQuestion_cells s) as [-> _].
Qed.

(** A property of each record given the records logged before it extends to a
    log grown by one record. *)
Lemma snoc_split {A} (l pre post : list A) x r :
  l ++ [x] = pre ++ r :: post ->
  (pre = l /\ r = x /\ post = []) \/
  exists post', post = post' ++ [x] /\ l = pre ++ r :: post'.
Proof.
  intros E. destruct (exists_last (l := r :: post)) as (m & y & Em); [discriminate|].
  assert (E' : l ++ [x] = (pre ++ m) ++ [y]).
  { rewrite <- app_assoc, <- Em. exact E. }
  apply app_inj_tail in E' as [-> ->].
  destruct m as [|r' m]; simpl in Em.
  - left. injection Em as -> ->. now rewrite app_nil_r.
  - right. injection Em as -> ->. exists m. auto.
Qed.

Lemma each_with_past_snoc (P : list AttemptRecord -> AttemptRecord -> Prop) log x :
  (forall pre r post, log = pre ++ r :: post -> P pre r) ->
  P log x ->
  forall pre r post, log ++ [x] = pre ++ r :: post -> P pre r.
Proof.
  intros Hlog Hx pre r post E.
  destruct (snoc_split _ _ _ _ _ E) as [(-> & -> & _)|(post' & _ & E')].
  - exact Hx.
  - eapply Hlog. exact E'.
Qed.

Lemma noAnswer_judged_wrong q :
  FoldsAscii CF -> In q quizData ->
  judge (js "No Answer") (correctAnswer q) = false.
Proof.
  intros FA H.
  assert (A : forallb (fun q =>
                isAscii (correctAnswer q)
                && negb (strictEquals (asciiLower (trim (js "No Answer")))
                                      (asciiLower (trim (correctAnswer q)))))
                quizData = true)
    by (vm_compute; reflexivity).
  rewrite forallb_forall in A. specialize (A q H).
  apply andb_true_iff in A as [A1 A2].
  rewrite (judge_ascii _ _ FA) by (assumption || reflexivity).
  now apply negb_true_iff in A2.
Qed.

(** The facts about the log that hold record by record. *)
Lemma Reachable_log s :
  Reachable s ->
  forall pre r post,
    attempts s = pre ++ r :: post ->
    attemptNumber r = length (attemptsAt (questionIndex r) pre) + 1 /\
    correctAt (questionIndex r) pre = [].
Proof.
  induction 1 as [|s o s' R IH W P].
  - intros pre r post E. destruct pre; discriminate.
  - apply Reachable_Invariant in R.
    destruct (perform_appends _ _ _ W P)
      as [->|(q & x & -> & F & A & Hq & Hi & Ht & Hn & Hv)]; [exact IH|].
    apply each_with_past_snoc; [exact IH|].
    rewrite Hi, Hn. split.
    + now rewrite (inv_count s R F).
    + now apply (inv_open s R).
Qed.

Lemma Reachable_consistent s :
  FoldsAscii CF -> Reachable s -> Forall consistentRecord (attempts s).
Proof.
  intros FA. induction 1 as [|s o s' R IH W P].
  - constructor.
  - destruct (perform_appends _ _ _ W P)
      as [->|(q & x & -> & F & A & Hq & Hi & Ht & Hn & Hv)]; [exact IH|].
    apply Forall_app. split; [exact IH|]. constructor; [|constructor].
    exists q. rewrite Hi. split; [exact Hq|]. split; [exact Ht|].
    destruct Hv as [[Hv _]|[-> _]]; [exact Hv|]. simpl.
    symmetry. apply noAnswer_judged_wrong; [exact FA|].
    eapply nth_error_In, Hq.
Qed.

(** ** Bounds *)

(** X1. In every reachable state the timer is between 0 and 30: no firing of
    the timer effect takes it below zero, and nothing sets it above 30. *)
Theorem timer_within_bounds s : Reachable s -> (0 <= timer s <= 30)%Z.
Proof.
  intros R. apply (inv_timer s), Reachable_Invariant, R.
Qed.

(** X2. In every reachable state the score is at most the number of
    questions, and the log holds at most one correct record per question of
    the quiz, so at most as many correct records as there are questions. *)
Theorem score_at_most_questionCount s :
  Reachable s ->
  score s <= questionCount /\
  length (correctAttempts (attempts s)) <= questionCount.
Proof.
  intros R. apply Reachable_Invariant in R.
  destruct R as [Iidx Ibound _ Iscore Ionce _ _ _ _].
  assert (B : length (correctAttempts (attempts s)) <= questionCount).
  { rewrite <- (answeredQuestions_length _ Ionce).
    - unfold answeredQuestions.
      etransitivity; [apply filter_length_le|]. now rewrite length_seq.
    - eapply Forall_impl; [|exact Ibound]. simpl. intros; lia. }
  split; [now rewrite Iscore | exact B].
Qed.

(** ** The shape of the log *)

(** X3. In every reachable state the records of each question are numbered
    1, 2, 3, ... in log order: the attempt number of a record is one more
    than the number of records logged before it for the same question. *)
Theorem attempts_numbered_per_question s pre r post :
  Reachable s -> attempts s = pre ++ r :: post ->
  attemptNumber r = length (attemptsAt (questionIndex r) pre) + 1.
Proof.
  intros R E. now destruct (Reachable_log s R pre r post E).
Qed.

(** X4. Nothing is logged for a question after a correct record for it: in
    every reachable state, no record of the log is preceded by a correct
    record with the same question index. *)
Theorem nothing_logged_after_correct s pre r post :
  Reachable s -> attempts s = pre ++ r :: post ->
  correctAt (questionIndex r) pre = [] /\
  (isCorrect r = true -> attemptsAt (questionIndex r) post = []).
Proof.
  intros R E. split; [now destruct (Reachable_log s R pre r post E) as (_ & H)|].
  intros C. destruct (attemptsAt (questionIndex r) post) as [|x m] eqn:Hx;
    [reflexivity|exfalso].
  assert (In x (attemptsAt (questionIndex r) post)) as Hin by (rewrite Hx; now left).
  apply filter_In in Hin as [Hin Hq]. apply Nat.eqb_eq in Hq.
  apply in_split in Hin as (p1 & p2 & ->).
  assert (E' : attempts s = (pre ++ r :: p1) ++ x :: p2).
  { rewrite E, <- app_assoc. reflexivity. }
  destruct (Reachable_log s R _ _ _ E') as (_ & H).
  rewrite Hq, correctAt_app in H. simpl in H.
  rewrite C, Nat.eqb_refl in H. simpl in H.
  now apply app_eq_nil in H as [_ H].
Qed.

(** X5. With a [toLowerCase] that folds ASCII as the real one does, every
    record of a reachable log agrees with the quiz data: its question index
    is valid and not beyond the current question, it carries the text of that
    question, and its verdict is the judgement of its answer against that
    question's correct answer (the timer's record included). *)
Theorem log_agrees_with_quizData s r :
  FoldsAscii CF -> Reachable s -> In r (attempts s) ->
  questionIndex r <= currentQuestion s /\
  questionIndex r < questionCount /\ consistentRecord r.
Proof.
  intros FA R Hin. split.
  - apply Reachable_Invariant in R. pose proof (inv_bound s R) as B.
    rewrite Forall_forall in B. now apply B.
  - pose proof (Reachable_consistent s FA R) as C.
    rewrite Forall_forall in C. specialize (C r Hin).
    split; [|exact C].
    destruct C as (q & Hq & _). apply nth_error_Some. unfold questionCount.
    rewrite Hq. discriminate.
Qed.

(** ** Running to the end *)

Lemma skip_rest n : forall s,
  currentQuestion s + S n = questionCount -> quizFinished s = false ->
  exists s',
    run (repeat advance (S n)) s = Some s' /\
    quizFinished s' = true /\ currentQuestion s' + 1 = questionCount /\
    score s' = score s /\ attempts s' = attempts s.
Proof.
  induction n as [|n IH]; intros s Hn F; simpl; rewrite F;
    destruct (handleNextQuestion_cells s) as (Hat & Hsc & _ & _ & _ & _ & _ & Hnext & Hlast).
  - exists (handleNextQuestion s). split; [reflexivity|].
    destruct Hlast as [Hcq Hqf]; [lia|]. repeat split; auto; lia.
  - destruct Hnext as [Hcq Hqf]; [lia|].
    destruct (IH (handleNextQuestion s)) as (s' & Hr & F' & L & Sc & At);
      [lia | congruence |].
    exists s'. split; [exact Hr|]. repeat split; auto; congruence.
Qed.

(** X6. From any running state on a valid question, pressing Next/Skip once
    for each remaining question reaches the summary: the quiz is finished,
    the index rests on the last question, and score and log are what they
    were. *)
Theorem skipping_reaches_summary s :
  currentQuestion s < questionCount -> quizFinished s = false ->
  exists s',
    run (repeat advance (questionCount - currentQuestion s)) s = Some s' /\
    quizFinished s' = true /\ currentQuestion s' + 1 = questionCount /\
    score s' = score s /\ attempts s' = attempts s.
Proof.
  intros Hidx F.
  replace (questionCount - currentQuestion s)
    with (S (questionCount - currentQuestion s - 1)) by lia.
  apply skip_rest; [lia | exact F].
Qed.

Lemma countdown n : forall s,
  quizFinished s = false -> answeredCorrectly s = false ->
  (Z.of_nat n <= timer s)%Z ->
  run (repeat tick n) s = Some (setTimer (timer s - Z.of_nat n)%Z s).
Proof.
  induction n as [|n IH]; intros s F A T.
  - simpl. rewrite Z.sub_0_r. destruct s; reflexivity.
  - cbn [repeat run perform]. unfold timerEffect. rewrite F, A. simpl negb. simpl andb.
    cbv iota.
    destruct (0 <? timer s)%Z eqn:E; [|apply Z.ltb_ge in E; lia].
    rewrite IH; simpl; try assumption; try lia.
    f_equal. unfold setTimer. simpl. f_equal. lia.
Qed.

(** X7. A running, unanswered question with [n] seconds on the timer stays
    put for [n] firings of the timer effect, which only count the timer down to
    zero; the firing after that makes the question transition, with the score
    unchanged.  So an untouched question lasts exactly [timer + 1] firings. *)
Theorem question_expires_after_timer n s :
  currentQuestion s < questionCount ->
  quizFinished s = false -> answeredCorrectly s = false ->
  timer s = Z.of_nat n ->
  (forall k, k <= n ->
     run (repeat tick k) s = Some (setTimer (timer s - Z.of_nat k)%Z s)) /\
  exists s',
    run (repeat tick (S n)) s = Some s' /\
    advanced s s' /\ freshQuestion s' /\ score s' = score s.
Proof.
  intros Hidx F A T. split.
  - intros k Hk. apply countdown; try assumption. lia.
  - replace (S n) with (n + 1) by lia.
    assert (Hrun : forall ops ops' t, run (ops ++ ops') t =
              match run ops t with Some t' => run ops' t' | None => None end).
    { induction ops as [|o ops IH]; intros ops' t; simpl; [reflexivity|].
      destruct (perform o t); [apply IH | reflexivity]. }
    rewrite repeat_app, Hrun, countdown by (try assumption; lia).
    rewrite T, Z.sub_diag. simpl run.
    set (t := setTimer 0 s).
    destruct (quizData_lookup _ Hidx) as [q Hq].
    unfold timerEffect. change (quizFinished t) with (quizFinished s).
    change (answeredCorrectly t) with (answeredCorrectly s).
    change (timer t) with 0%Z. change (currentAttempt t) with (currentAttempt s).
    change (currentQuestion t) with (currentQuestion s).
    rewrite F, A, Hq. simpl.
    assert (Adv : forall u, currentQuestion u = currentQuestion s ->
                    quizFinished u = false -> score u = score s ->
                    advanced s (handleNextQuestion u) /\
                    freshQuestion (handleNextQuestion u) /\
                    score (handleNextQuestion u) = score s).
    { intros u Hc Hf Hs.
      assert (Hu : currentQuestion u < questionCount) by lia.
      destruct (handleNextQuestion_advanced u Hu) as [Ad Fr].
      split; [|split; [exact Fr|rewrite handleNextQuestion_score; exact Hs]].
      unfold advanced in *. rewrite Hc, Hf in Ad. rewrite F. exact Ad. }
    destruct (currentAttempt s =? 0); eexists; (split; [reflexivity|]);
      apply Adv; reflexivity || assumption.
Qed.

(** ** Sequences of submissions *)

Lemma run_app ops ops' s :
  run (ops ++ ops') s =
  match run ops s with
  | Some s' => run ops' s'
  | None => None
  end.
Proof.
  revert s. induction ops as [|o ops IH]; intros s; simpl; [reflexivity|].
  destruct (perform o s); [apply IH | reflexivity].
Qed.

Lemma wrong_submissions wrongs : forall s q,
  quizFinished s = false -> answeredCorrectly s = false ->
  nth_error quizData (currentQuestion s) = Some q ->
  Forall (fun a => judge a (correctAnswer q) = false) wrongs ->
  exists s',
    run (map submitAnswer wrongs) s = Some s' /\
    attempts s' =
      attempts s ++ submissionRecords q (currentQuestion s) (currentAttempt s) wrongs /\
    score s' = score s /\ answeredCorrectly s' = false /\
    currentAttempt s' = currentAttempt s + length wrongs /\
    currentQuestion s' = currentQuestion s /\ timer s' = timer s /\
    quizFinished s' = false.
Proof.
  induction wrongs as [|a wrongs IH]; intros s q F A Hq W.
  - exists s. simpl. rewrite app_nil_r, Nat.add_0_r. repeat split; auto.
  - inversion W as [|x l Ja W']; subst.
    assert (Hidx : currentQuestion s < questionCount).
    { apply nth_error_Some. unfold questionCount. rewrite Hq. discriminate. }
    destruct (handleAnswerSelection_accepts a s A Hidx)
      as (q' & t & Hq' & Ht & Hat & Hac & Hsc & Hca & Hcq & Htm & Hqf & _).
    rewrite Hq in Hq'. injection Hq' as <-. rewrite Ja in *.
    destruct (IH t q) as (s' & Hr & Hat' & Hsc' & Hac' & Hca' & Hcq' & Htm' & Hqf');
      try congruence.
    exists s'. simpl. rewrite F, Ht. split; [exact Hr|].
    rewrite Hat', Hat, Hcq, Hca, <- app_assoc. simpl. rewrite Ja.
    repeat split; try congruence; lia.
Qed.

Lemma ignored_submissions later : forall s,
  quizFinished s = false -> answeredCorrectly s = true ->
  run (map submitAnswer later) s = Some s.
Proof.
  induction later as [|a later IH]; intros s F A; simpl; [reflexivity|].
  unfold handleAnswerSelection. rewrite F, A. now apply IH.
Qed.

Lemma submissionRecords_app q i made answers answers' :
  submissionRecords q i made (answers ++ answers') =
  submissionRecords q i made answers
  ++ submissionRecords q i (made + length answers) answers'.
Proof.
  revert made. induction answers as [|a answers IH]; intros made; simpl.
  - now rewrite Nat.add_0_r.
  - rewrite IH. do 3 f_equal. lia.
Qed.

(** X8. On a running, unanswered question, a series of wrong answers
    followed by a right one and by anything else logs the wrong answers and
    the right one, numbered on from the attempt counter, and nothing of what
    follows; the score goes up by exactly one however many submissions were
    made, and the timer is not touched. *)
Theorem first_correct_answer_settles wrongs right later s q :
  quizFinished s = false -> answeredCorrectly s = false ->
  nth_error quizData (currentQuestion s) = Some q ->
  Forall (fun a => judge a (correctAnswer q) = false) wrongs ->
  judge right (correctAnswer q) = true ->
  exists s',
    run (map submitAnswer (wrongs ++ right :: later)) s = Some s' /\
    attempts s' =
      attempts s ++
      submissionRecords q (currentQuestion s) (currentAttempt s) (wrongs ++ [right]) /\
    score s' = score s + 1 /\ answeredCorrectly s' = true /\
    currentAttempt s' = currentAttempt s + length wrongs + 1 /\
    currentQuestion s' = currentQuestion s /\ timer s' = timer s.
Proof.
  intros F A Hq W J.
  destruct (wrong_submissions wrongs s q F A Hq W)
    as (t & Hr & Hat & Hsc & Hac & Hca & Hcq & Htm & Hqf).
  assert (Hidx : currentQuestion t < questionCount).
  { apply nth_error_Some. unfold questionCount. rewrite Hcq, Hq. discriminate. }
  destruct (handleAnswerSelection_accepts right t Hac Hidx)
    as (q' & u & Hq' & Hu & Hat' & Hac' & Hsc' & Hca' & Hcq' & Htm' & Hqf' & _).
  rewrite Hcq, Hq in Hq'. injection Hq' as <-. rewrite J in *.
  exists u. rewrite map_app, run_app, Hr. simpl. rewrite Hqf, Hu.
  split; [apply ignored_submissions; congruence|].
  rewrite submissionRecords_app. simpl. rewrite J.
  rewrite Hat', Hat, Hcq, Hca, <- app_assoc.
  repeat split; try congruence; lia.
Qed.

(** ** The judgement *)

(** X9. The judgement does not see padding, on either side: white space
    put around a string (any ECMAScript white space or line terminator)
    leaves the verdict as it is, whatever the engine's [toLowerCase]; and the
    verdict is the same whichever of the two strings is taken as the answer.
    With a [toLowerCase] that folds ASCII as the real one does, two ASCII
    strings that differ only in the case of their letters get the same
    verdict. *)
Theorem judge_ignores_padding_and_case l a a' r c :
  allWhite l = true -> allWhite r = true ->
  judge (l ++ a ++ r) c = judge a c /\
  judge c (l ++ a ++ r) = judge c a /\
  judge a c = judge c a /\
  (FoldsAscii CF -> isAscii a = true -> isAscii a' = true ->
   asciiLower a = asciiLower a' -> judge a c = judge a' c).
Proof.
  intros Wl Wr. unfold judge. rewrite (trim_padding l a r Wl Wr).
  repeat split.
  - apply strictEquals_sym.
  - intros FA Ha Ha' E.
    rewrite (FA (trim a)), (FA (trim a')) by (now apply isAscii_trim).
    now rewrite <- !trim_asciiLower, E.
Qed.

(** ** When a handler raises *)

(** X10. The handlers raise only through [quizData[currentQuestion]] being
    undefined: a submission raises exactly when the question is not yet
    answered correctly and the index is out of range; the timer effect raises
    exactly when it has to write the timer's record (running, unanswered, time
    used up, no attempt made) and the index is out of range. *)
Theorem handlers_raise_only_out_of_range answer s :
  (handleAnswerSelection answer s = None <->
   answeredCorrectly s = false /\ questionCount <= currentQuestion s) /\
  (timerEffect s = None <->
   quizFinished s = false /\ answeredCorrectly s = false /\
   (timer s <= 0)%Z /\ currentAttempt s = 0 /\
   questionCount <= currentQuestion s).
Proof.
  assert (Out : forall i, nth_error quizData i = None <-> questionCount <= i)
    by (intros i; apply nth_error_None).
  split.
  - unfold handleAnswerSelection.
    destruct (answeredCorrectly s).
    + split; [discriminate | intros [H _]; discriminate].
    + destruct (nth_error quizData (currentQuestion s)) as [q|] eqn:Hq.
      * cbv zeta. split.
        -- destruct (judge answer (correctAnswer q)); discriminate.
        -- intros [_ H]. apply Out in H. congruence.
      * apply Out in Hq. tauto.
  - unfold timerEffect.
    destruct (quizFinished s); simpl;
      [split; [discriminate | intros [H _]; discriminate]|].
    destruct (answeredCorrectly s); simpl;
      [split; [discriminate | intros (_ & H & _); discriminate]|].
    destruct (0 <? timer s)%Z eqn:T.
    + apply Z.ltb_lt in T. split; [discriminate | intros (_ & _ & H & _); lia].
    + apply Z.ltb_ge in T.
      destruct (currentAttempt s =? 0) eqn:C.
      * apply Nat.eqb_eq in C.
        destruct (nth_error quizData (currentQuestion s)) as [q|] eqn:Hq.
        -- split; [discriminate|]. intros (_ & _ & _ & _ & H).
           apply Out in H. congruence.
        -- apply Out in Hq. tauto.
      * apply Nat.eqb_neq in C. split; [discriminate | tauto].
Qed.

(** ** The page *)

(** One event of the page leaves the log as it is or appends one record for
    the current question that holds the timer's answer, the option clicked,
    or the text typed, which is not blank. *)
Lemma uiFire_appends e s s' :
  withinSessionUi e = true -> uiFire e s = Some s' ->
  attempts s' = attempts s \/
  exists r, attempts s' = attempts s ++ [r] /\
            questionIndex r = currentQuestion s /\ submittable r.
Proof.
  intros W U. unfold uiFire in U.
  destruct (quizFinished s) eqn:F; [destruct e; discriminate|].
  destruct (nth_error quizData (currentQuestion s)) as [q|] eqn:Hq; [|discriminate].
  assert (Submit : forall answer t,
            handleAnswerSelection answer s = Some t ->
            match options q with
            | Some opts => In answer opts
            | None => trim answer <> []
            end ->
            attempts t = attempts s \/
            exists r, attempts t = attempts s ++ [r] /\
                      questionIndex r = currentQuestion s /\ submittable r).
  { intros answer t H Ok.
    assert (P : perform (submitAnswer answer) s = Some t) by (simpl; now rewrite F).
    destruct (perform_appends (submitAnswer answer) s t eq_refl P)
      as [E|(q' & r & E & _ & _ & Hq' & Hi & _ & _ & [[_ Ho]|[_ [_ Ho]]])];
      [now left | | discriminate].
    injection Ho as ->. rewrite Hq in Hq'. injection Hq' as <-.
    right. exists r. split; [exact E|]. split; [exact Hi|].
    right. exists q. rewrite Hi. auto. }
  destruct e as [i|value| | | |]; try discriminate.
  - destruct (options q) as [opts|] eqn:Ho; [|discriminate].
    destruct (nth_error opts i) as [option|] eqn:Hi; [|discriminate].
    apply (Submit option); [exact U|]. eapply nth_error_In, Hi.
  - destruct (options q); [discriminate|].
    destruct (answeredCorrectly s); [discriminate|].
    injection U as <-. now left.
  - destruct (options q) eqn:Ho; [discriminate|].
    destruct (answeredCorrectly s); [discriminate|].
    destruct (strictEquals (trim (textAnswer s)) []) eqn:B; [discriminate|].
    simpl in U.
    destruct (handleAnswerSelection (textAnswer s) s) as [t|] eqn:H; [|discriminate].
    injection U as <-.
    apply (Submit (textAnswer s) t H). now apply strictEquals_neq.
  - assert (U' : s' = handleNextQuestion s)
      by (destruct (options q); now injection U as <-).
    subst s'. left. now destruct (handleNextQuestion_cells s) as [-> _].
  - assert (P : perform tick s = Some s') by (destruct (options q); exact U).
    destruct (perform_appends tick s s' eq_refl P)
      as [E|(q' & r & E & _ & _ & _ & Hi & _ & _ & [[_ Ho]|[-> _]])];
      [now left | discriminate |].
    right. eexists. split; [exact E|]. split; [exact Hi|]. now left.
Qed.

(** X11. Whatever is done on the page within one session, every record of
    the log holds an answer the page can produce: the timer's ["No Answer"],
    one of the options listed for its (multiple-choice) question, or, for a
    free-text question, a text that is not blank.  A blank text is never
    logged. *)
Theorem page_logs_only_submittable_answers s r :
  UiReachable s -> In r (attempts s) -> submittable r.
Proof.
  intros U. revert r. induction U as [|s e s' _ IH W F]; intros r Hin.
  - destruct Hin.
  - destruct (uiFire_appends _ _ _ W F) as [E|(x & E & _ & Hx)];
      rewrite E in Hin; [now apply IH|].
    apply in_app_iff in Hin as [Hin|[<-|[]]]; [now apply IH | exact Hx].
Qed.

(** X12. On the page, a question answered correctly is frozen until Next is
    pressed: the timer does not run, clicking an option changes nothing, and
    the text input and its Submit button are disabled, so every event other
    than Next leaves the state as it is. *)
Theorem answered_question_waits_for_next e s s' :
  answeredCorrectly s = true -> quizFinished s = false ->
  uiFire e s = Some s' ->
  s' = s \/ (e = clickNextOrSkip /\ s' = handleNextQuestion s).
Proof.
  intros A F U. unfold uiFire in U. rewrite F in U.
  destruct (nth_error quizData (currentQuestion s)) as [q|]; [|discriminate].
  destruct e as [i|value| | | |]; try discriminate.
  - destruct (options q) as [opts|]; [|discriminate].
    destruct (nth_error opts i); [|discriminate].
    unfold handleAnswerSelection in U. rewrite A in U. injection U as <-. now left.
  - destruct (options q); [discriminate|]. rewrite A in U. discriminate.
  - destruct (options q); [discriminate|]. rewrite A in U. discriminate.
  - right. split; [reflexivity|]. destruct (options q); now injection U as <-.
  - left. unfold timerEffect in U. rewrite F, A in U. simpl in U.
    destruct (options q); now injection U as <-.
Qed.

(** X13. The page never raises within a session: in every state it can be
    brought to, the current question exists in the quiz data (so the question
    view renders), and neither a submission nor the timer effect raises. *)
Theorem page_never_raises s :
  UiReachable s ->
  (exists q, nth_error quizData (currentQuestion s) = Some q) /\
  (forall answer, handleAnswerSelection answer s <> None) /\
  timerEffect s <> None.
Proof.
  intros U. apply UiReachable_Reachable, Reachable_Invariant in U.
  pose proof (inv_index _ U) as Hidx. simpl in Hidx.
  destruct (quizData_lookup _ Hidx) as [q Hq].
  split; [eauto|]. split.
  - intros answer. unfold handleAnswerSelection. rewrite Hq.
    destruct (answeredCorrectly s); [discriminate|]. cbv zeta.
    destruct (judge answer (correctAnswer q)); discriminate.
  - unfold timerEffect. rewrite Hq.
    repeat match goal with |- context [if ?b then _ else _] => destruct b end;
      discriminate.
Qed.

(** ** The summary *)

(** X14. The summary is final within a session: once the quiz is finished,
    no submission, timer firing or advance changes anything, so whatever a
    session goes through after finishing, its state (score and log included)
    is the one it finished with. *)
Theorem summary_is_final s s' :
  quizFinished s = true -> Evolves s s' -> s' = s.
Proof.
  intros F E. induction E as [|s o s' s'' _ IH W P]; [reflexivity|].
  specialize (IH F). subst s'.
  destruct o as [answer| | |]; simpl in P; rewrite ?F in P; try discriminate.
  unfold timerEffect in P. rewrite F in P. simpl in P. now injection P as <-.
Qed.

(** ** What the browser holds *)

Lemma Invariant_score_answered s :
  Invariant s -> score s = length (answeredQuestions (attempts s)).
Proof.
  intros [Iidx Ibound _ Iscore Ionce _ _ _ _].
  rewrite Iscore. symmetry. apply answeredQuestions_length; [exact Ionce|].
  eapply Forall_impl; [|exact Ibound]. simpl. intros; lia.
Qed.

(** X15. Every save is accounted for, whatever the browser held when the
    page was mounted: the entries, console lines and alerts of earlier visits
    are kept in front of what the page adds; one success alert is fired per
    entry added; and each entry added and each error line logged comes from an
    open request of its own, so at least that many requests were made (more
    when a transaction aborted without an error event, which leaves no
    trace). *)
Theorem saves_are_accounted_for b0 w :
  WorldReachableFrom b0 w ->
  exists added lines shown,
    quizHistory (browser w) = quizHistory b0 ++ added /\
    consoleErrors (browser w) = consoleErrors b0 ++ lines /\
    alerts (browser w) = alerts b0 ++ shown /\
    length shown = length added /\
    openRequests b0 + length added + length lines <= openRequests (browser w).
Proof.
  induction 1 as [|w o e w' _ (added & lines & shown & Ha & Hl & Hs & Hn & Ho) D].
  - exists [], [], []. simpl. rewrite !app_nil_r. repeat split; lia.
  - unfold dispatch in D.
    destruct (perform o (session w)) as [s'|]; [|discriminate].
    injection D as <-. simpl. unfold historyEffect.
    destruct (historyDepsChanged (session w) s' && quizFinished s');
      [|exists added, lines, shown; auto].
    unfold saveQuizHistory.
    destruct (db e); simpl; rewrite ?Ha, ?Hl, ?Hs, <- ?app_assoc.
    + eexists added, (lines ++ [_]), shown. rewrite length_app. simpl.
      repeat split; auto; lia.
    + eexists added, (lines ++ [_]), shown. rewrite length_app. simpl.
      repeat split; auto; lia.
    + eexists added, (lines ++ [_]), shown. rewrite length_app. simpl.
      repeat split; auto; lia.
    + exists added, lines, shown. repeat split; auto; lia.
    + eexists (added ++ [_]), lines, (shown ++ [_]). rewrite !length_app. simpl.
      repeat split; auto; lia.
Qed.

Lemma dispatchAll_WorldReachableFrom b0 steps w w' :
  WorldReachableFrom b0 w -> dispatchAll steps w = Some w' ->
  WorldReachableFrom b0 w'.
Proof.
  revert w. induction steps as [|[o e] steps IH]; simpl; intros w Rw H.
  - injection H as <-. exact Rw.
  - destruct (dispatch o e w) as [w1|] eqn:D; [|discriminate].
    apply (IH w1); [|exact H]. eapply WorldReachableFrom_step; eassumption.
Qed.

(** X16. Every entry of the object store is a faithful summary: it records
    the number of questions of the quiz as its total, its score is the number
    of questions answered correctly in its own attempt log, and so at most
    its total. *)
Theorem stored_entries_are_summaries w h :
  WorldReachable w -> In h (quizHistory (browser w)) ->
  totalQuestions h = questionCount /\
  historyScore h = length (answeredQuestions (historyAttempts h)) /\
  historyScore h <= totalQuestions h.
Proof.
  intros R. revert h. induction R as [|w o e w' R IH D]; intros h Hin.
  - destruct Hin.
  - apply WorldReachable_Invariant in R.
    unfold dispatch in D.
    destruct (perform o (session w)) as [s'|] eqn:P; [|discriminate].
    injection D as <-. simpl in Hin. unfold historyEffect in Hin.
    destruct (historyDepsChanged (session w) s' && quizFinished s');
      [|now apply IH].
    unfold saveQuizHistory in Hin.
    destruct (db e); simpl in Hin; try (now apply IH).
    apply in_app_iff in Hin as [Hin|[<-|[]]]; [now apply IH|].
    pose proof (Invariant_perform _ _ _ R P) as I'.
    pose proof (Invariant_score_answered _ I') as Sc.
    simpl. split; [reflexivity|]. split; [exact Sc|].
    rewrite Sc. unfold answeredQuestions.
    etransitivity; [apply filter_length_le|]. now rewrite length_seq.
Qed.

(** ** Opening the database *)

(** X17. The upgrade handler never raises and leaves a database with the
    [quizHistory] store: it creates the store only when it is missing, so on a
    database that has it the handler changes nothing; the stores afterwards
    are those that were there and [quizHistory]; and running the handler again
    changes nothing. *)
Theorem upgrade_creates_store_when_missing d :
  exists d',
    onupgradeneeded d = Some d' /\
    contains (js "quizHistory") d' = true /\
    (contains (js "quizHistory") d = true -> d' = d) /\
    (forall name,
       contains name d'
       = strictEquals name (js "quizHistory") || contains name d) /\
    onupgradeneeded d' = Some d'.
Proof.
  destruct (contains (js "quizHistory") d) eqn:C.
  - exists d. unfold onupgradeneeded. rewrite C. simpl.
    repeat split; auto.
    intros name. destruct (strictEquals name (js "quizHistory")) eqn:E;
      [|reflexivity].
    apply strictEquals_eq in E as ->. exact C.
  - set (d' := {| hasStore :=
                    fun n => strictEquals n (js "quizHistory") || hasStore d n |}).
    assert (C' : contains (js "quizHistory") d' = true).
    { unfold contains, d'. cbn [hasStore]. now rewrite strictEquals_refl. }
    exists d'. unfold onupgradeneeded, createObjectStore. rewrite C, C'. simpl.
    repeat split; auto. discriminate.
Qed.

(** ** The text input *)

Lemma timerEffect_textAnswer s s' :
  timerEffect s = Some s' ->
  textAnswer s' = [] \/
  (textAnswer s' = textAnswer s /\ quizFinished s' = quizFinished s /\
   answeredCorrectly s' = answeredCorrectly s /\
   currentQuestion s' = currentQuestion s).
Proof.
  unfold timerEffect. intros H.
  destruct (negb (quizFinished s) && negb (answeredCorrectly s));
    [|injection H as <-; now right].
  destruct (0 <? timer s)%Z; [injection H as <-; now right|].
  left. destruct (currentAttempt s =? 0).
  - destruct (nth_error quizData (currentQuestion s)) as [q|]; [|discriminate].
    injection H as <-.
    now destruct (handleNextQuestion_cells
                    (setAttempts (attempts s ++ [noAnswerRecord q (currentQuestion s)]) s))
      as (_ & _ & _ & _ & _ & _ & -> & _).
  - injection H as <-.
    now destruct (handleNextQuestion_cells s) as (_ & _ & _ & _ & _ & _ & -> & _).
Qed.

(** The input buffer holds text only on a running, unanswered free-text
    question. *)
Lemma UiReachable_textAnswer s :
  UiReachable s ->
  textAnswer s = [] \/
  (quizFinished s = false /\ answeredCorrectly s = false /\
   exists q, nth_error quizData (currentQuestion s) = Some q /\ options q = None).
Proof.
  induction 1 as [|s e s' _ IH W U]; [now left|].
  unfold uiFire in U.
  destruct (quizFinished s) eqn:F; [destruct e; discriminate|].
  destruct (nth_error quizData (currentQuestion s)) as [q|] eqn:Hq; [|discriminate].
  destruct e as [i|value| | | |]; try discriminate.
  - destruct (options q) as [opts|] eqn:Ho; [|discriminate].
    destruct (nth_error opts i); [|discriminate].
    destruct (handleAnswerSelection_frame _ _ _ U) as (_ & _ & _ & Ht).
    left. rewrite Ht. destruct IH as [E|(_ & _ & q' & Hq' & Ho')]; [exact E|].
    congruence.
  - destruct (options q) eqn:Ho; [discriminate|].
    destruct (answeredCorrectly s) eqn:A; [discriminate|].
    injection U as <-. right. simpl. eauto.
  - destruct (options q); [discriminate|].
    destruct (answeredCorrectly s); [discriminate|].
    destruct (strictEquals (trim (textAnswer s)) []); [discriminate|]. simpl in U.
    destruct (handleAnswerSelection (textAnswer s) s); [|discriminate].
    injection U as <-. now left.
  - left. assert (s' = handleNextQuestion s) as ->
      by (destruct (options q); now injection U as <-).
    now destruct (handleNextQuestion_cells s) as (_ & _ & _ & _ & _ & _ & -> & _).
  - assert (T : timerEffect s = Some s') by (destruct (options q); exact U).
    destruct (timerEffect_textAnswer _ _ T) as [E|(Et & Ef & Ea & Ec)]; [now left|].
    rewrite Et, Ef, Ea, Ec, F, Hq. exact IH.
Qed.

(** X18. No stale text on the page: within a session the text input is
    empty whenever the quiz is finished, the current question is answered
    correctly, or the current question is a multiple-choice one; text is held
    only while a free-text question is still open. *)
Theorem no_stale_text s :
  UiReachable s ->
  quizFinished s = true \/ answeredCorrectly s = true \/
  (exists q opts, nth_error quizData (currentQuestion s) = Some q /\
                  options q = Some opts) ->
  textAnswer s = [].
Proof.
  intros U H.
  destruct (UiReachable_textAnswer s U) as [E|(F & A & q & Hq & Ho)]; [exact E|].
  destruct H as [H|[H|(q' & opts & Hq' & Ho')]]; congruence.
Qed.

End Component.

(** * The scenarios, run with the ASCII case folding *)

#[global] Existing Instance asciiFolding.

Lemma score_counts_answered_questions_witness :
  Reachable (stateAfter venusThenMercury) /\
  score (stateAfter venusThenMercury) = 1 /\
  1 = length (answeredQuestions (attempts (stateAfter venusThenMercury))).
Proof.
  assert (R : Reachable (stateAfter venusThenMercury)).
  { apply (run_Reachable venusThenMercury initialState);
      [exact Reachable_initial | reflexivity | vm_compute; reflexivity]. }
  split; [exact R|]. split; [vm_compute; reflexivity|].
  exact (proj1 (score_counts_answered_questions _ R)).
Defined.

Lemma attempt_log_append_only_witness :
  isPrefix (attempts (stateAfter [submitAnswer (js "Venus")]))
           (attempts (stateAfter venusThenMercury)) /\
  indexSorted (attempts (stateAfter venusThenMercury)).
Proof.
  assert (R : Reachable (stateAfter [submitAnswer (js "Venus")])).
  { apply (run_Reachable [submitAnswer (js "Venus")] initialState);
      [exact Reachable_initial | reflexivity | vm_compute; reflexivity]. }
  assert (E : Evolves (stateAfter [submitAnswer (js "Venus")])
                      (stateAfter venusThenMercury)).
  { apply (run_Evolves [submitAnswer (js "Mercury"); advance]); vm_compute; reflexivity. }
  destruct (attempt_log_append_only _ _ R E) as (P & _ & S).
  exact (conj P S).
Defined.

Lemma score_monotone_witness :
  score initialState <= score (stateAfter venusThenMercury).
Proof.
  apply (score_monotone initialState (stateAfter venusThenMercury)).
  apply (run_Evolves venusThenMercury); vm_compute; reflexivity.
Defined.

Lemma asciiFolding_FoldsAscii : FoldsAscii asciiFolding.
Proof.
  intros s _. reflexivity.
Qed.

Lemma submitAnswer_judges_normalized_witness :
  (exists s' r,
     handleAnswerSelection fortyNbsp (stateAfter (repeat advance 5)) = Some s' /\
     attempts s' = attempts (stateAfter (repeat advance 5)) ++ [r] /\
     isCorrect r = true) /\
  (exists s',
     handleAnswerSelection (js " Mercury ") initialState = Some s' /\
     answeredCorrectly s' = true /\ score s' = 1).
Proof.
  split.
  - destruct (proj1 submitAnswer_judges_normalized fortyNbsp
                (stateAfter (repeat advance 5))
                {| question := "What is the value of 12 + 28?";
                   options := None; correctAnswer := js "40" |}
                ltac:(vm_compute; reflexivity) ltac:(vm_compute; reflexivity))
      as (s' & r & Hs' & Hat & _ & _ & Hiff & _).
    exists s', r. split; [exact Hs'|]. split; [exact Hat|].
    apply Hiff. vm_compute. reflexivity.
  - apply (proj1 (proj2 submitAnswer_judges_normalized) asciiFolding_FoldsAscii).
    left. reflexivity.
Defined.

Lemma synthetic_record_only_on_idle_expiry_witness :
  exists s',
    perform tick idleExpiredState = Some s' /\
    currentQuestion s' = 1 /\ length (attempts s') = 1.
Proof.
  assert (R : Reachable idleExpiredState).
  { apply (run_Reachable (repeat tick 30) initialState);
      [exact Reachable_initial | reflexivity | vm_compute; reflexivity]. }
  destruct (synthetic_record_only_on_idle_expiry _ R eq_refl)
    as (_ & _ & s' & P & H).
  exists s'. split; [exact P|].
  change (expired idleExpiredState) with true in H.
  change (currentAttempt idleExpiredState =? 0) with true in H.
  destruct H as ([(_ & E & _)|(C & _)] & _ & r & Hr & _).
  - split; [exact E|]. rewrite Hr. reflexivity.
  - vm_compute in C. discriminate C.
Defined.

(** C7 as stated fails on the last question: the state after nine skips is
    reachable, and one more advance leaves the index at 9 (it does not become
    10) while the quiz becomes finished. *)
Lemma last_advance_keeps_index :
  Reachable lastQuestionState /\
  perform advance lastQuestionState = Some skippedAllState /\
  quizFinished skippedAllState = true /\
  currentQuestion skippedAllState = currentQuestion lastQuestionState /\
  currentQuestion skippedAllState <> currentQuestion lastQuestionState + 1 /\
  currentQuestion skippedAllState <> questionCount.
Proof.
  split.
  - apply (run_Reachable (repeat advance 9) initialState);
      [exact Reachable_initial | reflexivity | vm_compute; reflexivity].
  - split; [vm_compute; reflexivity|].
    split; [reflexivity|]. split; [reflexivity|].
    split; vm_compute; discriminate.
Qed.

Lemma question_index_progress_witness :
  currentQuestion lastQuestionState < questionCount /\
  currentQuestion (handleNextQuestion lastQuestionState) =
    currentQuestion lastQuestionState.
Proof.
  assert (R : Reachable lastQuestionState).
  { apply (run_Reachable (repeat advance 9) initialState);
      [exact Reachable_initial | reflexivity | vm_compute; reflexivity]. }
  destruct (question_index_progress _ R) as (B & _ & _ & L & _).
  split; [exact B|]. apply L. reflexivity.
Defined.

Lemma submit_after_correct_is_noop_witness :
  Reachable answeredFirstState /\
  handleAnswerSelection (js "Venus") answeredFirstState = Some answeredFirstState /\
  handleAnswerSelection (js "Mercury") answeredFirstState = Some answeredFirstState.
Proof.
  split.
  - apply (run_Reachable [submitAnswer (js "Mercury")] initialState);
      [exact Reachable_initial | reflexivity | vm_compute; reflexivity].
  - split.
    + exact (proj1 (submit_after_correct_is_noop (js "Venus") answeredFirstState
                      workingEnv emptyBrowser eq_refl)).
    + exact (proj1 (submit_after_correct_is_noop (js "Mercury") answeredFirstState
                      workingEnv emptyBrowser eq_refl)).
Defined.

(** C4 as stated fails when the database cannot be opened: skipping through
    all ten questions finishes the quiz, one save is attempted, and the object
    store is left without any entry. *)
Lemma failed_write_appends_nothing :
  quizFinished (session (worldAfter failingEnv skipAll)) = true /\
  openRequests (browser (worldAfter failingEnv skipAll)) = 1 /\
  quizHistory (browser (worldAfter failingEnv skipAll)) = [] /\
  length (quizHistory (browser (worldAfter failingEnv skipAll))) <> 1.
Proof.
  repeat split; try (vm_compute; reflexivity). vm_compute. discriminate.
Qed.

Lemma history_written_once_on_finish_witness :
  WorldReachable lastQuestionWorld /\
  dispatch advance workingEnv lastQuestionWorld = Some savedWorld /\
  openRequests (browser savedWorld) = 1 /\
  quizHistory (browser savedWorld) =
    [{| timestamp := "2025-01-01T00:00:00.000Z"; historyScore := 0;
        totalQuestions := 10; historyAttempts := [] |}].
Proof.
  assert (R : WorldReachable lastQuestionWorld).
  { apply (dispatchAll_WorldReachable
             (map (fun o => (o, workingEnv)) (repeat advance 9)) initialWorld);
      [exact WorldReachable_initial | vm_compute; reflexivity]. }
  assert (D : dispatch advance workingEnv lastQuestionWorld = Some savedWorld).
  { vm_compute. reflexivity. }
  pose proof (history_written_once_on_finish _ _ _ _ R D) as H.
  change (negb (quizFinished (session lastQuestionWorld))
          && quizFinished (session savedWorld)) with true in H.
  cbv iota in H. destruct H as (_ & _ & _ & Ho & Hq).
  split; [exact R|]. split; [exact D|]. split; [exact Ho | exact Hq].
Defined.


Example venusThenMercury_run :
  run venusThenMercury initialState =
  Some {| currentQuestion := 1; feedback := ""; answeredCorrectly := false;
          score := 1;
          attempts :=
            [{| attemptQuestion := "Which planet is closest to the Sun?";
                selectedAnswer := js "Venus"; isCorrect := false;
                attemptNumber := 1; questionIndex := 0 |};
             {| attemptQuestion := "Which planet is closest to the Sun?";
                selectedAnswer := js "Mercury"; isCorrect := true;
                attemptNumber := 2; questionIndex := 0 |}];
          currentAttempt := 0; timer := 30; quizFinished := false;
          textAnswer := [] |}.
Proof. vm_compute. reflexivity. Qed.

Example expireFirst_run :
  run expireFirst initialState =
  Some {| currentQuestion := 1; feedback := ""; answeredCorrectly := false;
          score := 0;
          attempts :=
            [{| attemptQuestion := "Which planet is closest to the Sun?";
                selectedAnswer := js "No Answer"; isCorrect := false;
                attemptNumber := 1; questionIndex := 0 |}];
          currentAttempt := 0; timer := 30; quizFinished := false;
          textAnswer := [] |}.
Proof. vm_compute. reflexivity. Qed.

Example skipAll_saves_once :
  worldAfter workingEnv skipAll = savedWorld.
Proof. vm_compute. reflexivity. Qed.

(** Outside the page's gating the handler is not idempotent per question:
    called on the summary it would log and score the last question again,
    which is why [perform] offers no submission once the quiz is finished. *)
Example handler_on_summary_scores_again :
  exists s s',
    run (repeat advance 9 ++ [submitAnswer (js "120"); advance]) initialState = Some s /\
    quizFinished s = true /\ score s = 1 /\
    handleAnswerSelection (js "120") s = Some s' /\ score s' = 2.
Proof.
  eexists _, _. split; [vm_compute; reflexivity|].
  split; [reflexivity|]. split; [reflexivity|].
  split; [vm_compute; reflexivity | reflexivity].
Qed.

Lemma timer_within_bounds_witness : (0 <= timer idleExpiredState <= 30)%Z.
Proof.
  apply timer_within_bounds.
  apply (run_Reachable (repeat tick 30) initialState);
    [exact Reachable_initial | reflexivity | vm_compute; reflexivity].
Defined.

Lemma score_at_most_questionCount_witness :
  score answeredFirstState <= questionCount.
Proof.
  apply score_at_most_questionCount.
  apply (run_Reachable [submitAnswer (js "Mercury")] initialState);
    [exact Reachable_initial | reflexivity | vm_compute; reflexivity].
Defined.

Lemma venusMercuryState_Reachable : Reachable venusMercuryState.
Proof.
  apply (run_Reachable [submitAnswer (js "Venus"); submitAnswer (js "Mercury")] initialState);
    [exact Reachable_initial | reflexivity | vm_compute; reflexivity].
Qed.

Lemma attempts_numbered_per_question_witness :
  attemptNumber mercuryRecord =
  length (attemptsAt (questionIndex mercuryRecord) [venusRecord]) + 1.
Proof.
  exact (attempts_numbered_per_question venusMercuryState [venusRecord]
           mercuryRecord [] venusMercuryState_Reachable eq_refl).
Defined.

Lemma nothing_logged_after_correct_witness :
  correctAt (questionIndex mercuryRecord) [venusRecord] = [].
Proof.
  exact (proj1 (nothing_logged_after_correct venusMercuryState [venusRecord]
                  mercuryRecord [] venusMercuryState_Reachable eq_refl)).
Defined.

Lemma log_agrees_with_quizData_witness :
  questionIndex venusRecord <= currentQuestion venusMercuryState /\
  questionIndex venusRecord < questionCount /\ consistentRecord venusRecord.
Proof.
  apply (log_agrees_with_quizData venusMercuryState venusRecord
           asciiFolding_FoldsAscii venusMercuryState_Reachable).
  left. reflexivity.
Defined.

Lemma skipping_reaches_summary_witness :
  exists s',
    run (repeat advance (questionCount - currentQuestion venusMercuryState))
        venusMercuryState = Some s' /\
    quizFinished s' = true /\ score s' = 1.
Proof.
  destruct (skipping_reaches_summary venusMercuryState)
    as (s' & Hr & F & _ & Sc & _).
  - vm_compute. repeat constructor.
  - reflexivity.
  - exists s'. auto.
Defined.

Lemma question_expires_after_timer_witness :
  exists s',
    run (repeat tick 31) initialState = Some s' /\
    advanced initialState s' /\ score s' = 0.
Proof.
  destruct (question_expires_after_timer 30 initialState)
    as (_ & s' & Hr & Ad & _ & Sc).
  - vm_compute. repeat constructor.
  - reflexivity.
  - reflexivity.
  - reflexivity.
  - exists s'. auto.
Defined.

Lemma first_correct_answer_settles_witness :
  exists s',
    run (map submitAnswer ([js "Venus"; js "Mars"]
                           ++ js "mercury" :: [js "Earth"; js "Mercury"]))
        initialState = Some s' /\
    score s' = 1 /\ length (attempts s') = 3.
Proof.
  destruct (first_correct_answer_settles [js "Venus"; js "Mars"] (js "mercury")
              [js "Earth"; js "Mercury"] initialState
              {| question := "Which planet is closest to the Sun?";
                 options := Some [js "Venus"; js "Mercury"; js "Earth"; js "Mars"];
                 correctAnswer := js "Mercury" |})
    as (s' & Hr & Hat & Hsc & _).
  - reflexivity.
  - reflexivity.
  - reflexivity.
  - repeat constructor; vm_compute; reflexivity.
  - vm_compute. reflexivity.
  - exists s'. split; [exact Hr|]. split; [exact Hsc|]. rewrite Hat. reflexivity.
Defined.

Lemma judge_ignores_padding_and_case_witness :
  judge ([160%N] ++ js "hTmL" ++ [8232%N; 32%N]) (js "HTML")
  = judge (js "hTmL") (js "HTML") /\
  judge (js "hTmL") (js "HTML") = judge (js "html") (js "HTML").
Proof.
  destruct (judge_ignores_padding_and_case [160%N] (js "hTmL") (js "html")
              [8232%N; 32%N] (js "HTML") eq_refl eq_refl)
    as (P & _ & _ & C).
  split; [exact P|].
  apply (C asciiFolding_FoldsAscii); vm_compute; reflexivity.
Defined.

Lemma venusState_UiReachable : UiReachable venusState.
Proof.
  apply (UiReachable_step initialState (clickOption 0));
    [exact UiReachable_initial | reflexivity | vm_compute; reflexivity].
Qed.

Lemma page_logs_only_submittable_answers_witness : submittable venusRecord.
Proof.
  apply (page_logs_only_submittable_answers venusState venusRecord
           venusState_UiReachable).
  left. reflexivity.
Defined.

Lemma answered_question_waits_for_next_witness :
  handleNextQuestion answeredFirstState = answeredFirstState \/
  (clickNextOrSkip = clickNextOrSkip /\
   handleNextQuestion answeredFirstState = handleNextQuestion answeredFirstState).
Proof.
  apply (answered_question_waits_for_next clickNextOrSkip answeredFirstState);
    vm_compute; reflexivity.
Defined.

Lemma page_never_raises_witness :
  handleAnswerSelection (js "Mercury") venusState <> None.
Proof.
  apply (page_never_raises venusState venusState_UiReachable).
Defined.

Lemma summary_is_final_witness :
  stateAfter (skipAll ++ [tick; tick]) = skippedAllState.
Proof.
  apply summary_is_final; [reflexivity|].
  apply (run_Evolves [tick; tick]); vm_compute; reflexivity.
Defined.

Lemma saves_are_accounted_for_witness :
  exists added lines shown,
    quizHistory (browser abortedWorld) = quizHistory returningBrowser ++ added /\
    consoleErrors (browser abortedWorld) = consoleErrors returningBrowser ++ lines /\
    alerts (browser abortedWorld) = alerts returningBrowser ++ shown /\
    length shown = length added /\
    openRequests returningBrowser + length added + length lines
    <= openRequests (browser abortedWorld).
Proof.
  apply (saves_are_accounted_for returningBrowser abortedWorld).
  apply (dispatchAll_WorldReachableFrom returningBrowser
           (map (fun o => (o, abortingEnv)) skipAll)
           {| session := initialState; browser := returningBrowser |});
    [apply WorldReachableFrom_mount | vm_compute; reflexivity].
Defined.

Lemma stored_entries_are_summaries_witness :
  totalQuestions (historyOf workingEnv skippedAllState) = questionCount.
Proof.
  apply (stored_entries_are_summaries savedWorld).
  - apply (dispatchAll_WorldReachable
             (map (fun o => (o, workingEnv)) skipAll) initialWorld);
      [exact WorldReachable_initial | vm_compute; reflexivity].
  - left. reflexivity.
Defined.

Lemma no_stale_text_witness : textAnswer venusState = [].
Proof.
  apply (no_stale_text venusState venusState_UiReachable).
  right. right. eexists _, _. split; vm_compute; reflexivity.
Defined.
